(** * upload_report.py: hashing, upload and lifecycle-rule merge

    A shallow embedding of [upload_report.py].  The script hashes a local
    zip archive, uploads it to an S3 bucket under [<sha256>/report.zip] and
    then rewrites the bucket's lifecycle configuration so that the uploaded
    key expires after three days.

    Remote calls, printing and process exit are modelled by a small
    trace-producing monad: a computation reads the replies of the outside
    world, records the events it emits in order and ends in a value, a
    [sys.exit] or an uncaught exception. *)

From Stdlib Require Import ZArith String Ascii Lia.
From Stdlib.Strings Require Import Byte.
From Equations Require Import Equations.
From stdpp Require Import gmap strings list pretty.

Set Warnings "-register-all".

Open Scope string_scope.
Open Scope list_scope.

(** ** Python values and string helpers *)

Module Py.

(** Values stored in the dictionaries exchanged with boto3. *)
Inductive pyval : Type :=
| PNone
| PStr (s : string)
| PInt (z : Z)
| PList (l : list pyval)
| PDict (d : gmap string pyval).

(** [s.split(sep)] for a one-character separator. *)
Fixpoint split (sep : ascii) (s : string) : list string :=
  match s with
  | EmptyString => [EmptyString]
  | String c rest =>
      if Ascii.eqb c sep then EmptyString :: split sep rest
      else match split sep rest with
           | seg :: segs => String c seg :: segs
           | [] => [String c EmptyString]
           end
  end.

(** [l[i]] on a list of strings; [split] never returns the empty list,
    so the out-of-range branch is not reached from the script. *)
Definition subscript (l : list string) (i : nat) : string :=
  default EmptyString (l !! i).

(** [needle in hay] on strings. *)
Fixpoint str_in (needle hay : string) : bool :=
  String.prefix needle hay
  || match hay with
     | EmptyString => false
     | String _ rest => str_in needle rest
     end.

(** [d.get(k)]: the value, or [None] when the key is absent. *)
Definition dict_get (d : gmap string pyval) (k : string) : pyval :=
  default PNone (d !! k).

(** [v == s] for a [str] [s]: only an equal string compares equal. *)
Definition eq_str (v : pyval) (s : string) : bool :=
  match v with
  | PStr t => bool_decide (t = s)
  | _ => false
  end.

(** [os.path.basename]: what follows the last slash. *)
Definition basename (p : string) : string :=
  default EmptyString (last (split "/" p)).

(** [sep.join(l)] *)
Fixpoint join (sep : string) (l : list string) : string :=
  match l with
  | [] => EmptyString
  | [s] => s
  | s :: rest => s +:+ sep +:+ join sep rest
  end.

End Py.

Import Py.

(** ** SHA-256

    [hashlib.sha256] is the SHA-256 function of FIPS 180-4.  Words are
    32-bit integers held in [Z] with the wrap-around written out; a message
    is a list of bytes. *)

Module SHA256.

Local Open Scope Z_scope.

Definition wrap (x : Z) : Z := x mod 2 ^ 32.
Definition add32 (x y : Z) : Z := wrap (x + y).
Definition rotr (n x : Z) : Z := Z.lor (Z.shiftr x n) (wrap (Z.shiftl x (32 - n))).
Definition shr (n x : Z) : Z := Z.shiftr x n.
Definition not32 (x : Z) : Z := Z.lxor x (2 ^ 32 - 1).

Definition Ch (x y z : Z) : Z := Z.lxor (Z.land x y) (Z.land (not32 x) z).
Definition Maj (x y z : Z) : Z :=
  Z.lxor (Z.lxor (Z.land x y) (Z.land x z)) (Z.land y z).
Definition Sigma0 (x : Z) : Z := Z.lxor (Z.lxor (rotr 2 x) (rotr 13 x)) (rotr 22 x).
Definition Sigma1 (x : Z) : Z := Z.lxor (Z.lxor (rotr 6 x) (rotr 11 x)) (rotr 25 x).
Definition sigma0 (x : Z) : Z := Z.lxor (Z.lxor (rotr 7 x) (rotr 18 x)) (shr 3 x).
Definition sigma1 (x : Z) : Z := Z.lxor (Z.lxor (rotr 17 x) (rotr 19 x)) (shr 10 x).

(** The constants are the fractional parts of roots of primes: the first
    32 bits of the square roots of the first 8 primes for the initial hash
    value, of the cube roots of the first 64 primes for the round keys. *)
Definition is_prime (n : nat) : bool :=
  forallb (λ d, negb (Nat.eqb (n mod d) 0)) (seq 2 (n - 2)).

Definition primes (count : nat) : list Z :=
  Z.of_nat <$> take count (filter (λ n, is_prime n = true) (seq 2 310)).

(** The largest [r] below [2 ^ bits] with [r ^ e ≤ n], bit by bit. *)
Fixpoint iroot (e : Z) (bits : nat) (n r : Z) : Z :=
  match bits with
  | O => r
  | S b =>
      let r' := r + 2 ^ Z.of_nat b in
      iroot e b n (if r' ^ e <=? n then r' else r)
  end.

Definition frac_root (e p : Z) : Z := wrap (iroot e 40 (p * 2 ^ (32 * e)) 0).

Definition K : list Z := Eval vm_compute in frac_root 3 <$> primes 64.

Definition H0 : list Z := Eval vm_compute in frac_root 2 <$> primes 8.

(** Big-endian encoding of [x] on [n] bytes. *)
Fixpoint be_bytes (n : nat) (x : Z) : list Z :=
  match n with
  | O => []
  | S n' => (Z.shiftr x (8 * Z.of_nat n')) mod 256 :: be_bytes n' x
  end.

Definition be_word (bs : list Z) : Z := foldl (fun acc b => acc * 256 + b) 0 bs.

Fixpoint words (n : nat) (bs : list Z) : list Z :=
  match n with
  | O => []
  | S n' => be_word (take 4 bs) :: words n' (drop 4 bs)
  end.

(** The padding of a message of [len] bytes: the bit 1, zeros up to 56
    modulo 64 bytes, and the length in bits on 8 bytes. *)
Definition pad_tail (len : nat) : list Z :=
  let zeros := Z.to_nat ((55 - Z.of_nat len) mod 64) in
  [0x80] ++ replicate zeros 0 ++ be_bytes 8 (8 * Z.of_nat len).

Definition pad (msg : list Z) : list Z := msg ++ pad_tail (length msg).

Definition nth_word (w : list Z) (i : nat) : Z := default 0 (w !! i).

Fixpoint schedule (n : nat) (w : list Z) : list Z :=
  match n with
  | O => w
  | S n' =>
      let t := length w in
      schedule n'
        (w ++ [wrap (sigma1 (nth_word w (t - 2)) + nth_word w (t - 7)
                     + sigma0 (nth_word w (t - 15)) + nth_word w (t - 16))])
  end.

Definition round (s : list Z) (kw : Z * Z) : list Z :=
  match s with
  | [a; b; c; d; e; f; g; h] =>
      let t1 := wrap (h + Sigma1 e + Ch e f g + kw.1 + kw.2) in
      let t2 := wrap (Sigma0 a + Maj a b c) in
      [add32 t1 t2; a; b; c; add32 d t1; e; f; g]
  | _ => s
  end.

Definition compress (h : list Z) (block : list Z) : list Z :=
  let w := schedule 48 (words 16 block) in
  zip_with add32 h (foldl round h (zip K w)).

Fixpoint hash_blocks (n : nat) (h : list Z) (msg : list Z) : list Z :=
  match n with
  | O => h
  | S n' => hash_blocks n' (compress h (take 64 msg)) (drop 64 msg)
  end.

Definition byte_val (b : byte) : Z := Z.of_N (Byte.to_N b).

(** The hash value as 32 bytes. *)
Definition output (h : list Z) : list Z := mjoin (be_bytes 4 <$> h).

Definition digest (msg : list byte) : list Z :=
  let m := pad (byte_val <$> msg) in
  output (hash_blocks (length m / 64) H0 m).

Definition hex_digit (n : Z) : ascii :=
  ascii_of_nat (Z.to_nat (if n <? 10 then 48 + n else 87 + n)).

Definition hex_byte (b : Z) : string :=
  String (hex_digit (b / 16)) (String (hex_digit (b mod 16)) EmptyString).

Definition hex (bs : list Z) : string :=
  foldr (fun b acc => hex_byte b +:+ acc) EmptyString bs.

Definition hexdigest (msg : list byte) : string := hex (digest msg).

End SHA256.

(** ** hashlib and file objects *)

Module Hashlib.

(** A [hashlib.sha256()] object hashes incrementally: [update] compresses
    the complete 64-byte blocks as they arrive and keeps the remainder in a
    buffer, together with the number of bytes seen; [hexdigest] pads what is
    left in the buffer and renders the hash value. *)
Record hashobj := {
  state : list Z;
  buffer : list Z;
  count : nat }.

Definition sha256 : hashobj :=
  {| state := SHA256.H0; buffer := []; count := 0 |}.

Definition update (h : hashobj) (buf : list byte) : hashobj :=
  let data := buffer h ++ (SHA256.byte_val <$> buf) in
  let n := length data / 64 in
  {| state := SHA256.hash_blocks n (state h) data;
     buffer := drop (64 * n) data;
     count := count h + length buf |}.

Definition hexdigest (h : hashobj) : string :=
  let final := buffer h ++ SHA256.pad_tail (count h) in
  SHA256.hex
    (SHA256.output (SHA256.hash_blocks (length final / 64) (state h) final)).

End Hashlib.

(** [datafile.read(n)] on a file opened with ['rb']: the next [n] bytes, or
    fewer at the end of the file, and the file advanced past them. *)
Definition read (n : nat) (datafile : list byte) : list byte * list byte :=
  (take n datafile, drop n datafile).

(** ** Exceptions, events and the outside world *)

Inductive exn_class := ClientError | IOError | BadZipfile | OtherError.

#[global] Instance exn_class_eq_dec : EqDecision exn_class.
Proof. solve_decision. Defined.

(** An exception: its class and [str(e)]. *)
Record exn := Exn { exn_cls : exn_class; exn_str : string }.

(** The dictionary returned by [get_bucket_lifecycle_configuration] and
    submitted to [bucket_lifecycle.put]. *)
Record lifecycle_cfg := {
  Rules : list (gmap string pyval);
  ResponseMetadata : option pyval }.

Record put_object_args := {
  Body : list byte;
  Bucket : string;
  Key : string;
  ACL : string;
  ContentType : string;
  ServerSideEncryption : string;
  Metadata : gmap string string }.

Inductive event :=
| Print (line : string)
| PutObject (args : put_object_args)
| GetBucketLifecycleConfiguration (bucket : string)
| BucketLifecycleDelete (bucket : string)
| BucketLifecyclePut (bucket : string) (cfg : lifecycle_cfg).

(** What the file system, the clock and S3 answer during one run. *)
Record world := {
  zipfile_reply : option exn;
  file_contents : list byte;
  datetime_now : string;
  put_object_reply : exn + Z;
  get_lifecycle_reply : exn + lifecycle_cfg;
  delete_lifecycle_reply : option exn;
  put_lifecycle_reply : option exn }.

Inductive outcome (A : Type) :=
| Val (a : A)
| SysExit (code : Z)
| Raised (e : exn).
Arguments Val {A} a.
Arguments SysExit {A} code.
Arguments Raised {A} e.

Definition M (A : Type) : Type := world → list event * outcome A.

#[global] Instance M_ret : MRet M := λ A a _, ([], Val a).

#[global] Instance M_bind : MBind M := λ A B k m w,
  match m w with
  | (t, Val a) => let '(t', o) := k a w in (t ++ t', o)
  | (t, SysExit code) => (t, SysExit code)
  | (t, Raised e) => (t, Raised e)
  end.

Definition print (line : string) : M unit := λ _, ([Print line], Val tt).

Definition sys_exit {A} (code : Z) : M A := λ _, ([], SysExit code).

Definition reply {A} (r : exn + A) : outcome A :=
  match r with inl e => Raised e | inr a => Val a end.

Definition reply_unit (r : option exn) : outcome unit :=
  match r with Some e => Raised e | None => Val tt end.

(** The first [except] clause whose class is that of [e]. *)
Fixpoint find_handler {A} (handlers : list (exn_class * (exn → M A))) (e : exn)
  : option (exn → M A) :=
  match handlers with
  | [] => None
  | (cls, h) :: rest =>
      if decide (exn_cls e = cls) then Some h else find_handler rest e
  end.

(** [try: body except cls as e: handler e ...] *)
Definition try_except {A} (body : M A) (handlers : list (exn_class * (exn → M A)))
  : M A := λ w,
  match body w with
  | (t, Raised e) =>
      match find_handler handlers e with
      | Some h => let '(t', o) := h e w in (t ++ t', o)
      | None => (t, Raised e)
      end
  | r => r
  end.

(** The exit status of the interpreter: 0 when [main] returns, the argument
    of [sys.exit], and 1 after the traceback of an uncaught exception. *)
Definition exit_status {A} (o : outcome A) : Z :=
  match o with
  | Val _ => 0%Z
  | SysExit code => code
  | Raised _ => 1%Z
  end.

(** *** Library calls *)

Definition zipfile_ZipFile_testzip (filename : string) : M unit :=
  λ w, ([], reply_unit (zipfile_reply w)).

(** [open(filename, 'rb')]: the bytes of the file.  [zipfile.ZipFile] opens
    the same path, so a file on which the archive check meets an [IOError]
    cannot be opened here either, and [open] raises that error. *)
Definition open_rb (filename : string) : M (list byte) :=
  λ w, ([], match zipfile_reply w with
            | Some e =>
                if decide (exn_cls e = IOError) then Raised e
                else Val (file_contents w)
            | None => Val (file_contents w)
            end).

Definition datetime_now_str : M string := λ w, ([], Val (datetime_now w)).

Definition S3CLIENT_put_object (args : put_object_args) : M Z :=
  λ w, ([PutObject args], reply (put_object_reply w)).

Definition S3CLIENT_get_bucket_lifecycle_configuration (bucket : string)
  : M lifecycle_cfg :=
  λ w, ([GetBucketLifecycleConfiguration bucket], reply (get_lifecycle_reply w)).

Definition bucket_lifecycle_delete (bucket : string) : M unit :=
  λ w, ([BucketLifecycleDelete bucket], reply_unit (delete_lifecycle_reply w)).

Definition bucket_lifecycle_put (bucket : string) (cfg : lifecycle_cfg) : M unit :=
  λ w, ([BucketLifecyclePut bucket cfg], reply_unit (put_lifecycle_reply w)).

(** ** The script *)

Definition SSENCRYPT : string := "AES256".
Definition REPORT_NAME : string := "report.zip".
Definition BUCKET_NAME : string := "default".
Definition S3_ACL : string := "public-read".

Definition newlifecyclerule (prefix : string) : gmap string pyval :=
  let lifecycleid := subscript (split "/" prefix) 0 in
  {[ "Status" := PStr "Enabled";
     "Prefix" := PStr prefix;
     "Expiration" := PDict {[ "Days" := PInt 3%Z ]};
     "ID" := PStr lifecycleid ]}.

(** [bucket_lifecycle_cfg.pop('ResponseMetadata')], a missing key ignored. *)
Definition pop_ResponseMetadata (cfg : lifecycle_cfg) : lifecycle_cfg :=
  {| Rules := Rules cfg; ResponseMetadata := None |}.

(** One iteration of the scan:
    [if rules[i].get('ID') == d: index = i]. *)
Definition scan_step (d : string) (rules : list (gmap string pyval))
  (index : option nat) (i : nat) : option nat :=
  match rules !! i with
  | Some rule => if eq_str (dict_get rule "ID") d then Some i else index
  | None => index
  end.

(** [index = None; for i in range(len(rules)): ...] *)
Definition scan (d : string) (rules : list (gmap string pyval)) : option nat :=
  foldl (scan_step d rules) None (seq 0 (length rules)).

Definition setLifecycleConfig (prefix : string) : M unit :=
  bucket_lifecycle_cfg ←
    try_except
      (S3CLIENT_get_bucket_lifecycle_configuration BUCKET_NAME)
      [(ClientError, λ e,
         if str_in "(NoSuchLifecycleConfiguration)" (exn_str e)
         then mret {| Rules := []; ResponseMetadata := None |}
         else print ("Error getting lifecycle configuration: " +:+ exn_str e);;
              sys_exit 1%Z)];
  let bucket_lifecycle_cfg := pop_ResponseMetadata bucket_lifecycle_cfg in
  let index := scan (subscript (split "/" prefix) 0) (Rules bucket_lifecycle_cfg) in
  bucket_lifecycle_cfg ←
    match index with
    | Some index =>
        let cfg := {| Rules := delete index (Rules bucket_lifecycle_cfg);
                      ResponseMetadata := ResponseMetadata bucket_lifecycle_cfg |} in
        bucket_lifecycle_delete BUCKET_NAME;;
        mret cfg
    | None => mret bucket_lifecycle_cfg
    end;
  let bucket_lifecycle_cfg :=
    {| Rules := Rules bucket_lifecycle_cfg ++ [newlifecyclerule prefix];
       ResponseMetadata := ResponseMetadata bucket_lifecycle_cfg |} in
  try_except
    (bucket_lifecycle_put BUCKET_NAME bucket_lifecycle_cfg)
    [(ClientError, λ e, print ("Error with lifecycle configuration: " +:+ exn_str e))].

Definition uploadToS3 (filename targetfolder customer contenttype : string)
  : M string :=
  let prefix := targetfolder +:+ "/" +:+ REPORT_NAME in
  filedata ← open_rb filename;
  status ← S3CLIENT_put_object
    {| Body := filedata;
       Bucket := BUCKET_NAME;
       Key := prefix;
       ACL := S3_ACL;
       ContentType := contenttype;
       ServerSideEncryption := SSENCRYPT;
       Metadata := {[ "customer" := customer;
                      "originalFile" := basename filename ]} |};
  (if bool_decide (status ≠ 200%Z)
   then print ("Upload failed - HTTPStatusCode " +:+ pretty status);;
        sys_exit 1%Z
   else print "Upload Successful");;
  mret prefix.

Definition verifyzip (filename : string) : M unit :=
  try_except
    (zipfile_ZipFile_testzip filename)
    [(IOError, λ e, print (exn_str e);; sys_exit 1%Z);
     (BadZipfile, λ e,
        print ("Error: " +:+ exn_str e +:+ " " +:+ filename);; sys_exit 1%Z)].

(** [while len(buf) > 0: hashobj.update(buf); buf = datafile.read(block)] *)
Equations? hash_loop (block : nat) (buf datafile : list byte)
  (hashobj : Hashlib.hashobj) : Hashlib.hashobj
  by wf (length buf + length datafile) lt :=
  hash_loop block [] datafile hashobj := hashobj;
  hash_loop block (b :: buf) datafile hashobj :=
    hash_loop block (read block datafile).1 (read block datafile).2
      (Hashlib.update hashobj (b :: buf)).
Proof.
  cbn. rewrite length_take, length_drop. lia.
Qed.

(** The body of [getFolderName] after the archive check, for a block size. *)
Definition hash_file (block : nat) (datafile : list byte) : string :=
  let '(buf, datafile) := read block datafile in
  let hashobj := Hashlib.sha256 in
  Hashlib.hexdigest (hash_loop block buf datafile hashobj).

Definition getFolderName (filename : string) : M string :=
  verifyzip filename;;
  let block := 1024 in
  datafile ← open_rb filename;
  mret (hash_file block datafile).

(** [main], after [argparse] has produced [args.file] and [args.customer]. *)
Definition main (filename customer : string) : M unit :=
  targetfolder ← getFolderName filename;
  prefix ← uploadToS3 filename targetfolder customer "application/zip";
  uploadtimestamp ← datetime_now_str;
  setLifecycleConfig prefix;;
  print (join "," [uploadtimestamp; customer; basename filename; targetfolder]).

(** ** Vocabulary of the statements *)

(** The characters of a string. *)
Fixpoint chars (s : string) : list ascii :=
  match s with
  | EmptyString => []
  | String c rest => c :: chars rest
  end.

(** [rule.get('ID') == d] *)
Definition has_id (d : string) (rule : gmap string pyval) : bool :=
  eq_str (dict_get rule "ID") d.

(** The rule identifier the merge derives from the upload key. *)
Definition rule_id (prefix : string) : string := subscript (split "/" prefix) 0.

(** The configurations submitted by [bucket_lifecycle.put] in a trace. *)
Fixpoint puts (t : list event) : list lifecycle_cfg :=
  match t with
  | [] => []
  | BucketLifecyclePut _ cfg :: t => cfg :: puts t
  | _ :: t => puts t
  end.

(** The number of remote clears [bucket_lifecycle.delete] in a trace. *)
Fixpoint clears (t : list event) : nat :=
  match t with
  | [] => 0
  | BucketLifecycleDelete _ :: t => S (clears t)
  | _ :: t => clears t
  end.

(** The fetch failed with the "no configuration" condition of the script. *)
Definition no_configuration (e : exn) : bool :=
  bool_decide (exn_cls e = ClientError)
  && str_in "(NoSuchLifecycleConfiguration)" (exn_str e).

(** The rule set the merge works on after the fetch, if it goes on. *)
Definition fetched (w : world) : option (list (gmap string pyval)) :=
  match get_lifecycle_reply w with
  | inr cfg => Some (Rules cfg)
  | inl e => if no_configuration e then Some [] else None
  end.

(** What the write-back adds to the trace, and how it ends. *)
Definition put_tail (w : world) : list event * outcome unit :=
  match put_lifecycle_reply w with
  | None => ([], Val tt)
  | Some e =>
      if decide (exn_cls e = ClientError)
      then ([Print ("Error with lifecycle configuration: " +:+ exn_str e)], Val tt)
      else ([], Raised e)
  end.

(** The run of the merge once the rule set has been fetched. *)
Definition after_fetch (prefix : string) (rules : list (gmap string pyval))
  (w : world) : list event * outcome unit :=
  match scan (rule_id prefix) rules with
  | None =>
      (GetBucketLifecycleConfiguration BUCKET_NAME
       :: BucketLifecyclePut BUCKET_NAME
            {| Rules := rules ++ [newlifecyclerule prefix];
               ResponseMetadata := None |}
       :: (put_tail w).1, (put_tail w).2)
  | Some i =>
      match delete_lifecycle_reply w with
      | Some e =>
          ([GetBucketLifecycleConfiguration BUCKET_NAME;
            BucketLifecycleDelete BUCKET_NAME], Raised e)
      | None =>
          (GetBucketLifecycleConfiguration BUCKET_NAME
           :: BucketLifecycleDelete BUCKET_NAME
           :: BucketLifecyclePut BUCKET_NAME
                {| Rules := delete i rules ++ [newlifecyclerule prefix];
                   ResponseMetadata := None |}
           :: (put_tail w).1, (put_tail w).2)
      end
  end.

(** The rule list the merge submits for a fetched rule list: the rule at
    the scanned position removed, the new rule appended. *)
Definition merged (prefix : string) (rules : list (gmap string pyval))
  : list (gmap string pyval) :=
  match scan (rule_id prefix) rules with
  | Some index => delete index rules
  | None => rules
  end ++ [newlifecyclerule prefix].

(** The rules of a list whose ID equals [d], and the others. *)
Definition with_id (d : string) (rules : list (gmap string pyval))
  : list (gmap string pyval) :=
  filter (λ r, has_id d r = true) rules.

Definition without_id (d : string) (rules : list (gmap string pyval))
  : list (gmap string pyval) :=
  filter (λ r, has_id d r = false) rules.

(** The key, the [put_object] arguments and the log line of a run of
    [main] on an archive whose bytes are [file_contents w]. *)
Definition upload_key (w : world) : string :=
  SHA256.hexdigest (file_contents w) +:+ "/" +:+ REPORT_NAME.

Definition upload_args (filename customer : string) (w : world)
  : put_object_args :=
  {| Body := file_contents w;
     Bucket := BUCKET_NAME;
     Key := upload_key w;
     ACL := S3_ACL;
     ContentType := "application/zip";
     ServerSideEncryption := SSENCRYPT;
     Metadata := {[ "customer" := customer;
                    "originalFile" := basename filename ]} |}.

Definition log_line (filename customer : string) (w : world) : string :=
  join "," [datetime_now w; customer; basename filename;
            SHA256.hexdigest (file_contents w)].

(** Concrete rules and worlds on which the statements are exercised. *)
Definition existing_rule (id : string) (days : Z) : gmap string pyval :=
  {[ "ID" := PStr id;
     "Prefix" := PStr (id +:+ "/report.zip");
     "Status" := PStr "Enabled";
     "Expiration" := PDict {[ "Days" := PInt days ]} ]}.

Definition world_of (fetch : exn + lifecycle_cfg) (del put : option exn) : world :=
  {| zipfile_reply := None;
     file_contents := list_byte_of_string "abc";
     datetime_now := "2017-03-01 10:00:00.000000";
     put_object_reply := inr 200%Z;
     get_lifecycle_reply := fetch;
     delete_lifecycle_reply := del;
     put_lifecycle_reply := put |}.

Definition response (rules : list (gmap string pyval)) : exn + lifecycle_cfg :=
  inr {| Rules := rules;
         ResponseMetadata := Some (PDict {[ "HTTPStatusCode" := PInt 200%Z ]}) |}.

Definition no_such_configuration : exn :=
  Exn ClientError
    "An error occurred (NoSuchLifecycleConfiguration) when calling the GetBucketLifecycleConfiguration operation: The lifecycle configuration does not exist".

Definition access_denied : exn :=
  Exn ClientError
    "An error occurred (AccessDenied) when calling the GetBucketLifecycleConfiguration operation: Access Denied".

Definition malformed_xml : exn :=
  Exn ClientError
    "An error occurred (MalformedXML) when calling the PutBucketLifecycle operation: The XML you provided was not well-formed".

Definition connection_error : exn :=
  Exn OtherError "Could not connect to the endpoint URL".

(** The hash object [h] has been fed the bytes [m] since its creation. *)
Definition fed_by (h : Hashlib.hashobj) (m : list Z) : Prop :=
  Hashlib.state h = SHA256.hash_blocks (length m / 64) SHA256.H0 m
  ∧ Hashlib.buffer h = drop (64 * (length m / 64)) m
  ∧ Hashlib.count h = length m.

(** The world [w] with another answer to the fetch. *)
Definition with_fetch (w : world) (fetch : exn + lifecycle_cfg) : world :=
  {| zipfile_reply := zipfile_reply w;
     file_contents := file_contents w;
     datetime_now := datetime_now w;
     put_object_reply := put_object_reply w;
     get_lifecycle_reply := fetch;
     delete_lifecycle_reply := delete_lifecycle_reply w;
     put_lifecycle_reply := put_lifecycle_reply w |}.

(** A string of lowercase hexadecimal digits. *)
Definition lower_hex (s : string) : Prop :=
  Forall (λ c, c ∈ chars "0123456789abcdef") (chars s).

(** ** list_all_objects.py

    The listing script walks [BUCKETOBJ.objects.all()] and prints one line
    per object.  The collection is lazy: an error of the listing can arrive
    after some objects were yielded.  Reading the first attribute of an
    [S3RESOURCE.Object] sends one HEAD request, which can fail; the later
    attributes are read from the same answer. *)

Module ListAllObjects.

Definition BUCKET_NAME : string := "mybucket".

(** What the HEAD request of an object answers, each attribute as [str]
    renders it; an object under no lifecycle rule has the expiration
    [None]. *)
Record s3object := {
  metadata : string;
  last_modified : string;
  expiration : option string }.

(** [str(v)] of an optional string attribute. *)
Definition str_opt (v : option string) : string :=
  match v with
  | Some s => s
  | None => "None"
  end.

Inductive event :=
| HeadObject (bucket key : string)
| Print (line : string).

(** The keys the listing yields, each with the answer to its HEAD request,
    and how the listing ends: exhausted, or with an exception. *)
Record bucket := {
  objects : list (string * (exn + s3object));
  objects_end : option exn }.

(** The line printed for an object. *)
Definition line (key : string) (obj : s3object) : string :=
  join "," [key; metadata obj; last_modified obj; str_opt (expiration obj)].

(** [for objsummary in BUCKETOBJ.objects.all(): ...] *)
Fixpoint for_objects (objs : list (string * (exn + s3object)))
  (objs_end : option exn) : list event * outcome unit :=
  match objs with
  | [] => ([], reply_unit objs_end)
  | (key, head) :: rest =>
      match head with
      | inl e => ([HeadObject BUCKET_NAME key], Raised e)
      | inr s3object =>
          let '(t, o) := for_objects rest objs_end in
          (HeadObject BUCKET_NAME key :: Print (line key s3object) :: t, o)
      end
  end.

Definition script (b : bucket) : list event * outcome unit :=
  for_objects (objects b) (objects_end b).

(** The lines printed in a trace. *)
Fixpoint printed (t : list event) : list string :=
  match t with
  | [] => []
  | Print l :: t => l :: printed t
  | _ :: t => printed t
  end.

(** The keys of the HEAD requests in a trace. *)
Fixpoint heads (t : list event) : list string :=
  match t with
  | [] => []
  | HeadObject _ key :: t => key :: heads t
  | _ :: t => heads t
  end.

End ListAllObjects.

(** ** Further vocabulary *)

(** The number of occurrences of a character in a string. *)
Fixpoint count_char (c : ascii) (s : string) : nat :=
  match s with
  | EmptyString => 0
  | String c' rest => (if Ascii.eqb c' c then 1 else 0) + count_char c rest
  end.

(** The remote calls of a trace: everything but what is printed. *)
Fixpoint remote (t : list event) : list event :=
  match t with
  | [] => []
  | Print _ :: t => remote t
  | ev :: t => ev :: remote t
  end.

(** The lines printed in a trace. *)
Fixpoint printed (t : list event) : list string :=
  match t with
  | [] => []
  | Print l :: t => l :: printed t
  | _ :: t => printed t
  end.

(** A world in which the archive check, the upload and the three lifecycle
    calls answer as given. *)
Definition world_with (zip : option exn) (upload : exn + Z)
  (fetch : exn + lifecycle_cfg) (del put : option exn) : world :=
  {| zipfile_reply := zip;
     file_contents := list_byte_of_string "abc";
     datetime_now := "2017-03-01 10:00:00.000000";
     put_object_reply := upload;
     get_lifecycle_reply := fetch;
     delete_lifecycle_reply := del;
     put_lifecycle_reply := put |}.

Definition bad_zipfile : exn := Exn BadZipfile "File is not a zip file".

Definition no_such_file : exn :=
  Exn IOError "[Errno 2] No such file or directory: 'demo.zip'".

(** The error code in the text of a botocore [ClientError], which reads
    "An error occurred (<code>) when calling the <operation> operation:
    <message>": what stands between the first pair of parentheses. *)
Fixpoint until_close (s : string) : string :=
  match s with
  | EmptyString => EmptyString
  | String c rest =>
      if Ascii.eqb c ")" then EmptyString else String c (until_close rest)
  end.

Fixpoint error_code (s : string) : string :=
  match s with
  | EmptyString => EmptyString
  | String c rest => if Ascii.eqb c "(" then until_close rest else error_code rest
  end.

(** An access-denied error whose message happens to quote the marker. *)
Definition access_denied_quoting_marker : exn :=
  Exn ClientError
    "An error occurred (AccessDenied) when calling the GetBucketLifecycleConfiguration operation: denied, not (NoSuchLifecycleConfiguration)".

(** * Properties *)

(** ** SHA-256 test vectors *)

Example sha256_constants :
  SHA256.H0 !! 0 = Some 0x6a09e667%Z ∧ SHA256.H0 !! 7 = Some 0x5be0cd19%Z
  ∧ SHA256.K !! 0 = Some 0x428a2f98%Z ∧ SHA256.K !! 63 = Some 0xc67178f2%Z
  ∧ length SHA256.H0 = 8 ∧ length SHA256.K = 64.
Proof. split_and!; reflexivity. Qed.

Example sha256_abc :
  SHA256.hexdigest (list_byte_of_string "abc")
  = "ba7816bf8f01cfea414140de5dae2223b00361a396177a9cb410ff61f20015ad".
Proof. vm_compute. reflexivity. Qed.

Example sha256_empty :
  SHA256.hexdigest []
  = "e3b0c44298fc1c149afbf4c8996fb92427ae41e4649b934ca495991b7852b855".
Proof. vm_compute. reflexivity. Qed.

Example sha256_two_blocks :
  SHA256.hexdigest
    (list_byte_of_string "abcdbcdecdefdefgefghfghighijhijkijkljklmklmnlmnomnopnopq")
  = "248d6a61d20638b8e5c026930c3e6039a33ce45964ff2167f6ecedd419db06c1".
Proof. vm_compute. reflexivity. Qed.

(** ** Strings *)

Lemma split_nonempty (sep : ascii) (s : string) : split sep s ≠ [].
Proof.
  induction s as [|c s IH]; simpl; [done|].
  destruct (Ascii.eqb c sep); [done|].
  by destruct (split sep s).
Qed.

Lemma split_app_sep (sep : ascii) (s rest : string) :
  sep ∉ chars s →
  split sep (s +:+ String sep rest) = s :: split sep rest.
Proof.
  induction s as [|c s IH]; simpl; intros Hnot.
  - by rewrite Ascii.eqb_refl.
  - apply not_elem_of_cons in Hnot as [Hc Hs].
    destruct (Ascii.eqb_spec c sep) as [->|_]; [done|].
    by rewrite IH.
Qed.

Lemma rule_id_key (d rest : string) :
  "/"%char ∉ chars d → rule_id (d +:+ "/" +:+ rest) = d.
Proof.
  intros Hnot. unfold rule_id.
  change (d +:+ "/" +:+ rest) with (d +:+ String "/" rest).
  by rewrite split_app_sep.
Qed.

(** ** The scan for an existing rule *)

Lemma has_id_newlifecyclerule (prefix : string) :
  has_id (rule_id prefix) (newlifecyclerule prefix) = true.
Proof.
  unfold has_id, dict_get, newlifecyclerule, rule_id.
  rewrite lookup_insert_ne by done.
  rewrite lookup_insert_ne by done.
  rewrite lookup_insert_ne by done.
  rewrite lookup_singleton_eq. simpl. by apply bool_decide_eq_true.
Qed.

Lemma scan_steps_app (d : string) (l : list (gmap string pyval))
  (x : gmap string pyval) (idxs : list nat) (acc : option nat) :
  Forall (λ i, i < length l) idxs →
  foldl (scan_step d (l ++ [x])) acc idxs = foldl (scan_step d l) acc idxs.
Proof.
  intros Hall. revert acc.
  induction Hall as [|i idxs Hi _ IH]; intros acc; simpl; [done|].
  rewrite IH. f_equal. unfold scan_step. by rewrite lookup_app_l.
Qed.

Lemma scan_snoc (d : string) (l : list (gmap string pyval)) (x : gmap string pyval) :
  scan d (l ++ [x]) = if has_id d x then Some (length l) else scan d l.
Proof.
  unfold scan. rewrite length_app. simpl.
  rewrite seq_app, foldl_app. simpl.
  rewrite scan_steps_app.
  - unfold scan_step at 1.
    rewrite lookup_app_r by lia. rewrite Nat.sub_diag. simpl.
    fold (has_id d x). done.
  - apply Forall_forall. intros i Hi. apply elem_of_seq in Hi. lia.
Qed.

Lemma scan_nil (d : string) : scan d [] = None.
Proof. reflexivity. Qed.

Lemma scan_None (d : string) (rules : list (gmap string pyval)) :
  scan d rules = None ↔ Forall (λ r, has_id d r = false) rules.
Proof.
  induction rules as [|x l IH] using rev_ind.
  - split; [constructor|done].
  - rewrite scan_snoc, Forall_app, Forall_singleton.
    destruct (has_id d x); [|tauto].
    split; [done|]. by intros [_ ?].
Qed.

(** The scan ends on the highest matching position. *)
Lemma scan_Some (d : string) (rules : list (gmap string pyval)) (i : nat) :
  scan d rules = Some i →
  ∃ l1 r l2, rules = l1 ++ r :: l2 ∧ length l1 = i ∧ has_id d r = true
             ∧ Forall (λ r, has_id d r = false) l2.
Proof.
  induction rules as [|x l IH] using rev_ind; [done|].
  rewrite scan_snoc. destruct (has_id d x) eqn:Hx.
  - intros [= <-]. exists l, x, []. by repeat split.
  - intros (l1 & r & l2 & -> & Hlen & Hr & Hl2)%IH.
    exists l1, r, (l2 ++ [x]). rewrite <-app_assoc. repeat split; try done.
    apply Forall_app. split; [done|]. by apply Forall_singleton.
Qed.

Lemma scan_last_match (d : string) (l1 l2 : list (gmap string pyval))
  (r : gmap string pyval) :
  has_id d r = true → Forall (λ r, has_id d r = false) l2 →
  scan d (l1 ++ r :: l2) = Some (length l1).
Proof.
  intros Hr. induction l2 as [|x l2 IH] using rev_ind; intros Hl2.
  - by rewrite scan_snoc, Hr.
  - apply Forall_app in Hl2 as [Hl2 Hx].
    rewrite Forall_singleton in Hx.
    change (l1 ++ r :: l2 ++ [x]) with (l1 ++ (r :: l2) ++ [x]).
    rewrite (List.app_assoc l1 (r :: l2) [x]), scan_snoc, Hx. by apply IH.
Qed.

(** ** Runs of the merge *)

Lemma setLifecycleConfig_fetched (prefix : string) (w : world)
  (rules : list (gmap string pyval)) :
  fetched w = Some rules →
  setLifecycleConfig prefix w = after_fetch prefix rules w.
Proof.
  unfold fetched, after_fetch, put_tail, rule_id.
  unfold setLifecycleConfig, mbind, M_bind, try_except,
    S3CLIENT_get_bucket_lifecycle_configuration, bucket_lifecycle_delete,
    bucket_lifecycle_put, print, sys_exit, mret, M_ret, reply, reply_unit.
  destruct (get_lifecycle_reply w) as [e|cfg] eqn:Hget.
  - unfold no_configuration. simpl.
    destruct e as [cls msg]; simpl.
    destruct (decide (cls = ClientError)) as [->|Hne].
    + rewrite bool_decide_eq_true_2 by done. simpl.
      destruct (str_in _ msg); [|done].
      intros [= <-]. simpl.
      destruct (put_lifecycle_reply w) as [[cls' msg']|]; simpl; [|done].
      by destruct (decide (cls' = ClientError)).
    + rewrite bool_decide_eq_false_2 by done. done.
  - intros [= <-]. simpl.
    destruct (scan _ (Rules cfg)) as [i|]; simpl.
    + destruct (delete_lifecycle_reply w) as [e|]; simpl; [done|].
      destruct (put_lifecycle_reply w) as [[cls' msg']|]; simpl; [|done].
      by destruct (decide (cls' = ClientError)).
    + destruct (put_lifecycle_reply w) as [[cls' msg']|]; simpl; [|done].
      by destruct (decide (cls' = ClientError)).
Qed.

Lemma setLifecycleConfig_not_fetched (prefix : string) (w : world) :
  fetched w = None →
  ∃ e, get_lifecycle_reply w = inl e ∧ no_configuration e = false ∧
    setLifecycleConfig prefix w =
      if decide (exn_cls e = ClientError)
      then ([GetBucketLifecycleConfiguration BUCKET_NAME;
             Print ("Error getting lifecycle configuration: " +:+ exn_str e)],
            SysExit 1%Z)
      else ([GetBucketLifecycleConfiguration BUCKET_NAME], Raised e).
Proof.
  unfold fetched.
  destruct (get_lifecycle_reply w) as [e|cfg] eqn:Hget; [|done].
  destruct (no_configuration e) eqn:Hno; [done|]. intros _.
  exists e. split; [done|]. split; [done|].
  unfold setLifecycleConfig, mbind, M_bind, try_except,
    S3CLIENT_get_bucket_lifecycle_configuration, print, sys_exit, reply.
  rewrite Hget. simpl.
  unfold no_configuration in Hno.
  destruct (decide (exn_cls e = ClientError)) as [Hc|Hc]; [|done].
  rewrite bool_decide_eq_true_2 in Hno by done. simpl in Hno.
  by rewrite Hno.
Qed.

Lemma puts_put_tail (w : world) : puts (put_tail w).1 = [].
Proof.
  unfold put_tail. destruct (put_lifecycle_reply w) as [e|]; [|done].
  by destruct (decide (exn_cls e = ClientError)).
Qed.

Lemma clears_put_tail (w : world) : clears (put_tail w).1 = 0.
Proof.
  unfold put_tail. destruct (put_lifecycle_reply w) as [e|]; [|done].
  by destruct (decide (exn_cls e = ClientError)).
Qed.

(** Every configuration the merge submits is the merged rule list, without
    response metadata. *)
Lemma puts_run_elem (prefix : string) (w : world)
  (rules : list (gmap string pyval)) (cfg' : lifecycle_cfg) :
  fetched w = Some rules →
  cfg' ∈ puts (setLifecycleConfig prefix w).1 →
  cfg' = {| Rules := merged prefix rules; ResponseMetadata := None |}.
Proof.
  intros Hf. rewrite (setLifecycleConfig_fetched _ _ _ Hf).
  unfold after_fetch, merged.
  destruct (scan _ rules) as [i|].
  - destruct (delete_lifecycle_reply w); simpl.
    + by intros ?%elem_of_nil.
    + rewrite puts_put_tail. by intros ->%list_elem_of_singleton.
  - simpl. rewrite puts_put_tail. by intros ->%list_elem_of_singleton.
Qed.

(** A run that returns has submitted exactly one configuration. *)
Lemma puts_run_returned (prefix : string) (w : world)
  (rules : list (gmap string pyval)) :
  fetched w = Some rules →
  (setLifecycleConfig prefix w).2 = Val tt →
  puts (setLifecycleConfig prefix w).1
  = [{| Rules := merged prefix rules; ResponseMetadata := None |}].
Proof.
  intros Hf. rewrite (setLifecycleConfig_fetched _ _ _ Hf).
  unfold after_fetch, merged.
  destruct (scan _ rules) as [i|].
  - destruct (delete_lifecycle_reply w); simpl; [done|].
    by rewrite puts_put_tail.
  - simpl. by rewrite puts_put_tail.
Qed.

Lemma returned_fetched (prefix : string) (w : world) :
  (setLifecycleConfig prefix w).2 = Val tt → is_Some (fetched w).
Proof.
  destruct (fetched w) as [rules|] eqn:Hf; [by eexists|].
  destruct (setLifecycleConfig_not_fetched prefix w Hf) as (e & _ & _ & ->).
  by destruct (decide (exn_cls e = ClientError)).
Qed.

(** ** The merged rule list *)

Lemma with_id_none (d : string) (l : list (gmap string pyval)) :
  Forall (λ r, has_id d r = false) l → with_id d l = [].
Proof.
  unfold with_id. induction 1 as [|x l Hx _ IH]; [done|].
  rewrite filter_cons_False; [done|]. by rewrite Hx.
Qed.

Lemma without_id_all (d : string) (l : list (gmap string pyval)) :
  Forall (λ r, has_id d r = false) l → without_id d l = l.
Proof.
  unfold without_id. induction 1 as [|x l Hx _ IH]; [done|].
  rewrite filter_cons_True by done. by rewrite IH.
Qed.

Lemma with_id_app (d : string) (l1 l2 : list (gmap string pyval)) :
  with_id d (l1 ++ l2) = with_id d l1 ++ with_id d l2.
Proof. apply filter_app. Qed.

Lemma without_id_app (d : string) (l1 l2 : list (gmap string pyval)) :
  without_id d (l1 ++ l2) = without_id d l1 ++ without_id d l2.
Proof. apply filter_app. Qed.

Lemma with_id_cons_match (d : string) (r : gmap string pyval)
  (l : list (gmap string pyval)) :
  has_id d r = true → with_id d (r :: l) = r :: with_id d l.
Proof. intros Hr. unfold with_id. by rewrite filter_cons_True. Qed.

Lemma without_id_cons_match (d : string) (r : gmap string pyval)
  (l : list (gmap string pyval)) :
  has_id d r = true → without_id d (r :: l) = without_id d l.
Proof.
  intros Hr. unfold without_id. rewrite filter_cons_False; [done|].
  by rewrite Hr.
Qed.

(** The two shapes of the merged list: nothing matched and the new rule is
    appended, or the last match is dropped and the new rule is appended. *)
Lemma merged_cases (prefix : string) (rules : list (gmap string pyval)) :
  (scan (rule_id prefix) rules = None
   ∧ Forall (λ r, has_id (rule_id prefix) r = false) rules
   ∧ merged prefix rules = rules ++ [newlifecyclerule prefix])
  ∨ (∃ l1 r l2,
       rules = l1 ++ r :: l2
       ∧ scan (rule_id prefix) rules = Some (length l1)
       ∧ has_id (rule_id prefix) r = true
       ∧ Forall (λ r, has_id (rule_id prefix) r = false) l2
       ∧ merged prefix rules = l1 ++ l2 ++ [newlifecyclerule prefix]).
Proof.
  unfold merged. destruct (scan _ rules) as [i|] eqn:Hscan.
  - right. destruct (scan_Some _ _ _ Hscan) as (l1 & r & l2 & -> & <- & Hr & Hl2).
    exists l1, r, l2. repeat split; try done.
    by rewrite delete_middle, <-(List.app_assoc l1 l2).
  - left. repeat split; try done. by apply scan_None.
Qed.

Lemma merged_idempotent (prefix : string) (rules : list (gmap string pyval)) :
  merged prefix (merged prefix rules) = merged prefix rules.
Proof.
  assert (∀ l, merged prefix (l ++ [newlifecyclerule prefix])
               = l ++ [newlifecyclerule prefix]) as Hsnoc.
  { intros l. unfold merged at 1.
    rewrite scan_snoc, has_id_newlifecyclerule.
    replace (delete (length l) (l ++ [newlifecyclerule prefix])) with l; [done|].
    by rewrite delete_middle, app_nil_r. }
  destruct (merged_cases prefix rules)
    as [(_ & _ & ->)|(l1 & r & l2 & _ & _ & _ & _ & ->)].
  - apply Hsnoc.
  - rewrite (List.app_assoc l1 l2). apply Hsnoc.
Qed.

(** ** Incremental hashing *)

Lemma hash_blocks_add (a b : nat) (h m : list Z) :
  SHA256.hash_blocks (a + b) h m
  = SHA256.hash_blocks b (SHA256.hash_blocks a h m) (drop (64 * a) m).
Proof.
  revert h m. induction a as [|a IH]; intros h m; [done|].
  cbn [Nat.add SHA256.hash_blocks]. rewrite IH, drop_drop.
  by replace (64 + 64 * a) with (64 * S a) by lia.
Qed.

Lemma hash_blocks_app (n : nat) (h m x : list Z) :
  (64 * n ≤ length m)%nat →
  SHA256.hash_blocks n h (m ++ x) = SHA256.hash_blocks n h m.
Proof.
  revert h m. induction n as [|n IH]; intros h m Hlen; [done|].
  cbn [SHA256.hash_blocks].
  rewrite take_app_le, drop_app_le by lia.
  apply IH. rewrite length_drop. lia.
Qed.

Lemma blocks_split (m x : list Z) :
  length (m ++ x) / 64
  = length m / 64 + length (drop (64 * (length m / 64)) m ++ x) / 64.
Proof.
  rewrite !length_app, length_drop.
  pose proof (Nat.div_mod_eq (length m) 64) as Hm.
  replace (length m - 64 * (length m / 64)) with (length m mod 64) by lia.
  rewrite Hm at 1.
  rewrite <-Nat.add_assoc, (Nat.mul_comm 64), Nat.div_add_l by lia.
  done.
Qed.

Lemma sha256_fed : fed_by Hashlib.sha256 [].
Proof. by split_and!. Qed.

(** Feeding a buffer extends the bytes hashed so far by that buffer. *)
Lemma update_fed (h : Hashlib.hashobj) (m : list Z) (buf : list byte) :
  fed_by h m → fed_by (Hashlib.update h buf) (m ++ (SHA256.byte_val <$> buf)).
Proof.
  intros (Hstate & Hbuffer & Hcount).
  pose proof (Nat.div_mod_eq (length m) 64) as Hm.
  assert (64 * (length m / 64) ≤ length m)%nat as Hle by lia.
  unfold Hashlib.update.
  split_and!; cbn [Hashlib.state Hashlib.buffer Hashlib.count].
  - rewrite (blocks_split m), hash_blocks_add.
    rewrite (hash_blocks_app _ _ m), (drop_app_le m) by done.
    by rewrite <-Hstate, <-Hbuffer.
  - rewrite (blocks_split m), Nat.mul_add_distr_l, <-drop_drop.
    rewrite (drop_app_le m) by done.
    by rewrite <-Hbuffer.
  - by rewrite Hcount, length_app, length_fmap.
Qed.

(** The digest of an object fed the bytes of [msg] is the SHA-256 of [msg]. *)
Lemma hexdigest_fed (h : Hashlib.hashobj) (msg : list byte) :
  fed_by h (SHA256.byte_val <$> msg) →
  Hashlib.hexdigest h = SHA256.hexdigest msg.
Proof.
  intros (Hstate & Hbuffer & Hcount).
  unfold Hashlib.hexdigest, SHA256.hexdigest, SHA256.digest, SHA256.pad.
  cbv zeta. set (m := SHA256.byte_val <$> msg) in *.
  assert (64 * (length m / 64) ≤ length m)%nat as Hle.
  { pose proof (Nat.div_mod_eq (length m) 64). lia. }
  rewrite (blocks_split m), hash_blocks_add.
  rewrite (hash_blocks_app _ _ m), (drop_app_le m) by done.
  by rewrite <-Hstate, <-Hbuffer, Hcount.
Qed.

(** hashlib's contract: two calls of [update] are one call with the
    concatenation. *)
Lemma update_update (h : Hashlib.hashobj) (m : list Z) (a b : list byte) :
  fed_by h m →
  Hashlib.update (Hashlib.update h a) b = Hashlib.update h (a ++ b).
Proof.
  intros Hfed.
  pose proof (update_fed _ _ b (update_fed _ _ a Hfed)) as (Hs1 & Hb1 & Hc1).
  pose proof (update_fed _ _ (a ++ b) Hfed) as (Hs2 & Hb2 & Hc2).
  rewrite fmap_app, (List.app_assoc m) in Hs2, Hb2, Hc2.
  destruct (Hashlib.update (Hashlib.update h a) b) as [s1 b1 c1].
  destruct (Hashlib.update h (a ++ b)) as [s2 b2 c2].
  simpl in *. congruence.
Qed.

(** ** Hashing the file in chunks *)

Lemma read_empty_buf (block : nat) (datafile : list byte) :
  0 < block → (read block datafile).1 = [] → (read block datafile).2 = [].
Proof.
  unfold read. simpl. destruct block as [|n]; [lia|].
  destruct datafile; [done|]. simpl. discriminate.
Qed.

Lemma read_concat (block : nat) (datafile : list byte) :
  (read block datafile).1 ++ (read block datafile).2 = datafile.
Proof. apply take_drop. Qed.

(** The loop feeds the hash object the buffer and then the rest of the
    file, in order. *)
Lemma hash_loop_fed (block : nat) (buf datafile : list byte)
  (hashobj : Hashlib.hashobj) (m : list Z) :
  0 < block → (buf = [] → datafile = []) →
  fed_by hashobj m →
  fed_by (hash_loop block buf datafile hashobj)
         (m ++ (SHA256.byte_val <$> buf ++ datafile)).
Proof.
  intros Hblock. revert m.
  funelim (hash_loop block buf datafile hashobj); intros m Hinv Hfed.
  - rewrite Hinv by done. by rewrite app_nil_r.
  - pose proof (H Hblock (m ++ (SHA256.byte_val <$> b :: buf))
                  (read_empty_buf _ _ Hblock) (update_fed _ _ _ Hfed)) as IH.
    rewrite read_concat in IH.
    by rewrite <-(List.app_assoc m), <-fmap_app in IH.
Qed.

Lemma hash_file_sha256 (block : nat) (datafile : list byte) :
  0 < block → hash_file block datafile = SHA256.hexdigest datafile.
Proof.
  intros Hblock. unfold hash_file.
  pose proof (read_empty_buf block datafile Hblock) as Hinv.
  pose proof (read_concat block datafile) as Hcat.
  destruct (read block datafile) as [buf rest]. simpl in *.
  apply hexdigest_fed.
  rewrite <-Hcat.
  apply (hash_loop_fed block buf rest Hashlib.sha256 [] Hblock Hinv sha256_fed).
Qed.

(** ** The shape of a digest *)

Lemma be_bytes_range (n : nat) (x : Z) :
  Forall (λ b, (0 ≤ b < 256)%Z) (SHA256.be_bytes n x).
Proof.
  induction n as [|n IH]; simpl; constructor; [|done].
  apply Z.mod_pos_bound. lia.
Qed.

Lemma be_bytes_length (n : nat) (x : Z) : length (SHA256.be_bytes n x) = n.
Proof. induction n as [|n IH]; simpl; [done|]. by rewrite IH. Qed.

Lemma round_length (s : list Z) (kw : Z * Z) :
  length s = 8 → length (SHA256.round s kw) = 8.
Proof.
  intros Hs.
  destruct s as [|a [|b [|c [|d [|e [|f [|g [|h [|]]]]]]]]]; done.
Qed.

Lemma rounds_length (kws : list (Z * Z)) (s : list Z) :
  length s = 8 → length (foldl SHA256.round s kws) = 8.
Proof.
  revert s. induction kws as [|kw kws IH]; intros s Hs; simpl; [done|].
  apply IH. by apply round_length.
Qed.

Lemma compress_length (h block : list Z) :
  length h = 8 → length (SHA256.compress h block) = 8.
Proof.
  intros Hh. unfold SHA256.compress.
  rewrite length_zip_with, rounds_length by done. lia.
Qed.

Lemma hash_blocks_length (n : nat) (h msg : list Z) :
  length h = 8 → length (SHA256.hash_blocks n h msg) = 8.
Proof.
  revert h msg. induction n as [|n IH]; intros h msg Hh; simpl; [done|].
  apply IH. by apply compress_length.
Qed.

Lemma digest_range (msg : list byte) :
  Forall (λ b, (0 ≤ b < 256)%Z) (SHA256.digest msg).
Proof.
  unfold SHA256.digest, SHA256.output.
  apply Forall_join, Forall_fmap, Forall_true.
  intros x. apply be_bytes_range.
Qed.

Lemma digest_length (msg : list byte) : length (SHA256.digest msg) = 32.
Proof.
  unfold SHA256.digest, SHA256.output.
  pose proof (hash_blocks_length
    (length (SHA256.pad (SHA256.byte_val <$> msg)) / 64)
    SHA256.H0 (SHA256.pad (SHA256.byte_val <$> msg)) eq_refl) as Hlen.
  destruct (SHA256.hash_blocks _ _ _)
    as [|a [|b [|c [|d [|e [|f [|g [|h [|]]]]]]]]]; try done.
Qed.

Lemma hex_digit_lower (n : Z) :
  (0 ≤ n < 16)%Z → SHA256.hex_digit n ∈ chars "0123456789abcdef".
Proof.
  intros Hn.
  assert (∃ k, k < 16 ∧ n = Z.of_nat k) as (k & Hk & ->).
  { exists (Z.to_nat n). lia. }
  clear Hn.
  do 16 (destruct k as [|k]; [vm_compute; repeat constructor|]). lia.
Qed.

Lemma hex_bytes_lower (bs : list Z) :
  Forall (λ b, (0 ≤ b < 256)%Z) bs →
  lower_hex (SHA256.hex bs) ∧ String.length (SHA256.hex bs) = 2 * length bs.
Proof.
  unfold lower_hex, SHA256.hex. induction 1 as [|b bs Hb _ [IH1 IH2]]; simpl.
  - split; [constructor|done].
  - split.
    + constructor; [|constructor; [|done]]; apply hex_digit_lower.
      * split; [apply Z.div_pos; lia|apply Z.div_lt_upper_bound; lia].
      * apply Z.mod_pos_bound. lia.
    + transitivity (S (S (2 * length bs))); [|lia].
      by rewrite <-IH2.
Qed.

Lemma hexdigest_shape (msg : list byte) :
  lower_hex (SHA256.hexdigest msg) ∧ String.length (SHA256.hexdigest msg) = 64.
Proof.
  unfold SHA256.hexdigest.
  destruct (hex_bytes_lower _ (digest_range msg)) as [Hlow Hlen].
  split; [done|]. by rewrite Hlen, digest_length.
Qed.

(** ** Runs of [getFolderName] and [main] *)

Lemma getFolderName_run (filename : string) (w : world) :
  zipfile_reply w = None →
  getFolderName filename w = ([], Val (SHA256.hexdigest (file_contents w))).
Proof.
  intros Hzip.
  unfold getFolderName, verifyzip, mbind, M_bind, try_except,
    zipfile_ZipFile_testzip, open_rb, mret, M_ret, reply_unit.
  rewrite Hzip. cbn [app]. by rewrite hash_file_sha256 by lia.
Qed.

(** Once the archive is accepted and the upload answers 200, [main] is the
    upload, the merge and, when the merge returns, the log line. *)
Lemma main_uploaded (filename customer : string) (w : world) :
  zipfile_reply w = None → put_object_reply w = inr 200%Z →
  main filename customer w
  = (PutObject (upload_args filename customer w)
     :: Print "Upload Successful"
     :: (setLifecycleConfig (upload_key w) w).1
        ++ match (setLifecycleConfig (upload_key w) w).2 with
           | Val _ => [Print (log_line filename customer w)]
           | _ => []
           end,
     (setLifecycleConfig (upload_key w) w).2).
Proof.
  intros Hzip Hput.
  unfold main. unfold mbind at 1. unfold M_bind.
  rewrite getFolderName_run by done.
  unfold uploadToS3, mbind, M_bind, open_rb, S3CLIENT_put_object,
    datetime_now_str, print, mret, M_ret, reply.
  rewrite Hput, Hzip. cbn [app bool_decide decide_rel].
  rewrite bool_decide_eq_false_2 by (intros H; by apply H).
  fold (upload_key w). fold (upload_args filename customer w).
  fold (log_line filename customer w).
  destruct (setLifecycleConfig (upload_key w) w) as [t [[]|code|e]];
    cbn [fst snd app]; by rewrite ?app_nil_r.
Qed.

Lemma puts_run_fetched (prefix : string) (w : world) (cfg' : lifecycle_cfg) :
  cfg' ∈ puts (setLifecycleConfig prefix w).1 →
  ∃ rules, fetched w = Some rules
           ∧ cfg' = {| Rules := merged prefix rules; ResponseMetadata := None |}.
Proof.
  destruct (fetched w) as [rules|] eqn:Hf.
  - intros Hin. exists rules. split; [done|]. by eapply puts_run_elem.
  - destruct (setLifecycleConfig_not_fetched prefix w Hf) as (e & _ & _ & ->).
    destruct (decide (exn_cls e = ClientError)); simpl; by intros ?%elem_of_nil.
Qed.

Lemma with_id_new (prefix : string) :
  with_id (rule_id prefix) [newlifecyclerule prefix] = [newlifecyclerule prefix].
Proof. by rewrite with_id_cons_match by apply has_id_newlifecyclerule. Qed.

Lemma without_id_new (prefix : string) :
  without_id (rule_id prefix) [newlifecyclerule prefix] = [].
Proof. by rewrite without_id_cons_match by apply has_id_newlifecyclerule. Qed.

Lemma with_id_merged (prefix : string) (rules : list (gmap string pyval)) :
  (length (with_id (rule_id prefix) rules) ≤ 1)%nat →
  with_id (rule_id prefix) (merged prefix rules) = [newlifecyclerule prefix].
Proof.
  intros Hle.
  destruct (merged_cases prefix rules)
    as [(_ & Hnone & ->)|(l1 & r & l2 & -> & _ & Hr & Hl2 & ->)].
  - by rewrite with_id_app, with_id_new, with_id_none.
  - rewrite with_id_app, with_id_cons_match, length_app in Hle by done.
    simpl in Hle.
    assert (with_id (rule_id prefix) l1 = []) as Hl1.
    { apply length_zero_iff_nil. lia. }
    by rewrite !with_id_app, with_id_new, Hl1, with_id_none.
Qed.

Lemma dict_get_newlifecyclerule_Prefix (prefix : string) :
  dict_get (newlifecyclerule prefix) "Prefix" = PStr prefix.
Proof.
  unfold dict_get, newlifecyclerule.
  rewrite lookup_insert_ne by done. by rewrite lookup_insert_eq.
Qed.

(** A lifecycle configuration submitted during [main] was submitted by the
    merge for the key of the upload, after an accepted archive and an upload
    answered with status 200. *)
Lemma puts_main (filename customer : string) (w : world) (cfg' : lifecycle_cfg) :
  cfg' ∈ puts (main filename customer w).1 →
  zipfile_reply w = None ∧ put_object_reply w = inr 200%Z
  ∧ cfg' ∈ puts (setLifecycleConfig (upload_key w) w).1.
Proof.
  destruct (zipfile_reply w) as [e|] eqn:Hzip.
  { unfold main. unfold mbind at 1. unfold M_bind.
    unfold getFolderName, verifyzip, mbind, M_bind, try_except,
      zipfile_ZipFile_testzip, print, sys_exit, reply_unit.
    rewrite Hzip. destruct e as [[] msg]; simpl; by intros ?%elem_of_nil. }
  destruct (put_object_reply w) as [e|status] eqn:Hput.
  { unfold main. unfold mbind at 1. unfold M_bind.
    rewrite getFolderName_run by done.
    unfold uploadToS3, mbind, M_bind, open_rb, S3CLIENT_put_object, reply.
    rewrite Hput, Hzip. simpl. by intros ?%elem_of_nil. }
  destruct (decide (status = 200%Z)) as [->|Hne].
  - rewrite main_uploaded by done. simpl.
    destruct (setLifecycleConfig (upload_key w) w) as [t o]. simpl.
    intros Hin. repeat split; try done.
    assert (∀ t', puts t' = [] → cfg' ∈ puts (t ++ t') → cfg' ∈ puts t) as Happ.
    { clear. intros t' Ht'. induction t as [|[] t IH]; simpl; try done.
      - by rewrite Ht'.
      - intros [->|?]%elem_of_cons; [left|right; auto]. }
    eapply Happ; [|done]. by destruct o.
  - unfold main. unfold mbind at 1. unfold M_bind.
    rewrite getFolderName_run by done.
    unfold uploadToS3, mbind, M_bind, open_rb, S3CLIENT_put_object,
      print, sys_exit, reply.
    rewrite Hput, Hzip. cbn [app]. rewrite bool_decide_eq_true_2 by done.
    simpl. by intros ?%elem_of_nil.
Qed.

(** * Properties of the specification *)

(** C1, as stated, fails: a fetched rule set that holds the digest twice
    keeps one of the two old rules, so two rules carry the digest after a
    successful merge. *)
Lemma merge_keeps_earlier_duplicate :
  (setLifecycleConfig "abc/report.zip"
     (world_of (response [existing_rule "abc" 7; existing_rule "abc" 7])
               None None)).2 = Val tt
  ∧ (λ cfg, length (with_id "abc" (Rules cfg)))
      <$> puts (setLifecycleConfig "abc/report.zip"
                  (world_of (response [existing_rule "abc" 7; existing_rule "abc" 7])
                            None None)).1
    = [2]
  ∧ rule_id "abc/report.zip" = "abc".
Proof. split_and!; vm_compute; reflexivity. Qed.

(** C1, amended: for every fetched rule set that holds at most one rule
    whose ID is the digest, a merge that returns has submitted one rule set,
    in which exactly one rule has that ID and it is the newly constructed
    one; a second merge for the same key on the submitted rule set, if it
    returns, submits the same rule set again. *)
Theorem merge_one_rule_per_digest (prefix : string) (w : world)
  (rules : list (gmap string pyval)) :
  fetched w = Some rules →
  (length (with_id (rule_id prefix) rules) ≤ 1)%nat →
  (setLifecycleConfig prefix w).2 = Val tt →
  ∃ cfg',
    puts (setLifecycleConfig prefix w).1 = [cfg']
    ∧ with_id (rule_id prefix) (Rules cfg') = [newlifecyclerule prefix]
    ∧ ∀ w', fetched w' = Some (Rules cfg') →
            (setLifecycleConfig prefix w').2 = Val tt →
            puts (setLifecycleConfig prefix w').1 = [cfg'].
Proof.
  intros Hf Hle Hret.
  exists {| Rules := merged prefix rules; ResponseMetadata := None |}.
  split; [by apply puts_run_returned|].
  split; [by apply with_id_merged|].
  intros w' Hf' Hret'. simpl in Hf'.
  rewrite (puts_run_returned _ _ _ Hf' Hret').
  by rewrite merged_idempotent.
Qed.

Lemma merge_one_rule_per_digest_witness :
  let rules := [existing_rule "abc" 7; existing_rule "ff" 3] in
  let w := world_of (response rules) None None in
  fetched w = Some rules
  ∧ (length (with_id (rule_id "abc/report.zip") rules) ≤ 1)%nat
  ∧ (setLifecycleConfig "abc/report.zip" w).2 = Val tt
  ∧ ∃ cfg',
      puts (setLifecycleConfig "abc/report.zip" w).1 = [cfg']
      ∧ with_id (rule_id "abc/report.zip") (Rules cfg')
        = [newlifecyclerule "abc/report.zip"]
      ∧ ∀ w', fetched w' = Some (Rules cfg') →
              (setLifecycleConfig "abc/report.zip" w').2 = Val tt →
              puts (setLifecycleConfig "abc/report.zip" w').1 = [cfg'].
Proof.
  intros rules w.
  assert (fetched w = Some rules) as Hf by reflexivity.
  assert (length (with_id (rule_id "abc/report.zip") rules) ≤ 1)%nat as Hle
    by (vm_compute; lia).
  assert ((setLifecycleConfig "abc/report.zip" w).2 = Val tt) as Hret
    by (vm_compute; reflexivity).
  split_and!; [exact Hf|exact Hle|exact Hret|].
  exact (merge_one_rule_per_digest "abc/report.zip" w rules Hf Hle Hret).
Defined.

(** C9: when the fetched rule set holds the digest two or more times, the
    merge removes only the last rule with that ID before it appends the new
    rule: the rules before it, earlier duplicates included, and the rules
    after it are submitted unchanged. *)
Theorem merge_removes_only_last_duplicate (prefix : string) (w : world)
  (rules : list (gmap string pyval)) (cfg' : lifecycle_cfg) :
  fetched w = Some rules →
  (2 ≤ length (with_id (rule_id prefix) rules))%nat →
  cfg' ∈ puts (setLifecycleConfig prefix w).1 →
  ∃ l1 r l2,
    rules = l1 ++ r :: l2
    ∧ has_id (rule_id prefix) r = true
    ∧ with_id (rule_id prefix) l2 = []
    ∧ with_id (rule_id prefix) l1 ≠ []
    ∧ Rules cfg' = l1 ++ l2 ++ [newlifecyclerule prefix]
    ∧ with_id (rule_id prefix) (Rules cfg')
      = with_id (rule_id prefix) l1 ++ [newlifecyclerule prefix].
Proof.
  intros Hf Hdup Hin.
  rewrite (puts_run_elem _ _ _ _ Hf Hin). simpl.
  destruct (merged_cases prefix rules)
    as [(_ & Hnone & _)|(l1 & r & l2 & -> & _ & Hr & Hl2 & ->)].
  - rewrite with_id_none in Hdup by done. simpl in Hdup. lia.
  - exists l1, r, l2.
    rewrite with_id_app, with_id_cons_match, length_app in Hdup by done.
    rewrite (with_id_none _ l2) in Hdup by done. simpl in Hdup.
    repeat split; try done.
    + by apply with_id_none.
    + intros Hl1. rewrite Hl1 in Hdup. simpl in Hdup. lia.
    + by rewrite !with_id_app, with_id_new, (with_id_none _ l2).
Qed.

Lemma merge_removes_only_last_duplicate_witness :
  let rules := [existing_rule "abc" 1; existing_rule "ff" 3; existing_rule "abc" 7] in
  let w := world_of (response rules) None None in
  let cfg' := {| Rules := [existing_rule "abc" 1; existing_rule "ff" 3;
                           newlifecyclerule "abc/report.zip"];
                 ResponseMetadata := None |} in
  fetched w = Some rules
  ∧ (2 ≤ length (with_id (rule_id "abc/report.zip") rules))%nat
  ∧ cfg' ∈ puts (setLifecycleConfig "abc/report.zip" w).1
  ∧ ∃ l1 r l2,
      rules = l1 ++ r :: l2
      ∧ has_id (rule_id "abc/report.zip") r = true
      ∧ with_id (rule_id "abc/report.zip") l2 = []
      ∧ with_id (rule_id "abc/report.zip") l1 ≠ []
      ∧ Rules cfg' = l1 ++ l2 ++ [newlifecyclerule "abc/report.zip"]
      ∧ with_id (rule_id "abc/report.zip") (Rules cfg')
        = with_id (rule_id "abc/report.zip") l1
          ++ [newlifecyclerule "abc/report.zip"].
Proof.
  intros rules w cfg'.
  assert (fetched w = Some rules) as Hf by reflexivity.
  assert (2 ≤ length (with_id (rule_id "abc/report.zip") rules))%nat as Hdup
    by (vm_compute; lia).
  assert (cfg' ∈ puts (setLifecycleConfig "abc/report.zip" w).1) as Hin
    by (vm_compute; left).
  split_and!; [exact Hf|exact Hdup|exact Hin|].
  exact (merge_removes_only_last_duplicate "abc/report.zip" w rules cfg' Hf Hdup Hin).
Defined.

(** C10: in every rule set the merge submits, the rules whose ID differs
    from the digest are those of the fetched rule set, unchanged and in the
    same order, and the newly constructed rule is the last one. *)
Theorem merge_preserves_other_rules (prefix : string) (w : world)
  (rules : list (gmap string pyval)) (cfg' : lifecycle_cfg) :
  fetched w = Some rules →
  cfg' ∈ puts (setLifecycleConfig prefix w).1 →
  without_id (rule_id prefix) (Rules cfg') = without_id (rule_id prefix) rules
  ∧ last (Rules cfg') = Some (newlifecyclerule prefix).
Proof.
  intros Hf Hin.
  rewrite (puts_run_elem _ _ _ _ Hf Hin). simpl. split.
  - destruct (merged_cases prefix rules)
      as [(_ & _ & ->)|(l1 & r & l2 & -> & _ & Hr & _ & ->)].
    + by rewrite without_id_app, without_id_new, app_nil_r.
    + rewrite !without_id_app, without_id_new, app_nil_r.
      by rewrite without_id_cons_match.
  - unfold merged. apply last_snoc.
Qed.

Lemma merge_preserves_other_rules_witness :
  let rules := [existing_rule "ee" 1; existing_rule "abc" 7; existing_rule "ff" 3] in
  let w := world_of (response rules) None None in
  let cfg' := {| Rules := [existing_rule "ee" 1; existing_rule "ff" 3;
                           newlifecyclerule "abc/report.zip"];
                 ResponseMetadata := None |} in
  fetched w = Some rules
  ∧ cfg' ∈ puts (setLifecycleConfig "abc/report.zip" w).1
  ∧ without_id (rule_id "abc/report.zip") (Rules cfg')
    = without_id (rule_id "abc/report.zip") rules
  ∧ last (Rules cfg') = Some (newlifecyclerule "abc/report.zip").
Proof.
  intros rules w cfg'.
  assert (fetched w = Some rules) as Hf by reflexivity.
  assert (cfg' ∈ puts (setLifecycleConfig "abc/report.zip" w).1) as Hin
    by (vm_compute; left).
  split_and!; [exact Hf|exact Hin|..];
    apply (merge_preserves_other_rules "abc/report.zip" w rules cfg' Hf Hin).
Defined.

(** C6: the merge issues the remote clear at most once, and it issues it
    exactly when the fetched rule set holds a rule whose ID is the digest,
    whatever the clear and the write-back answer. *)
Theorem clear_iff_existing_rule (prefix : string) (w : world) :
  (clears (setLifecycleConfig prefix w).1 ≤ 1)%nat
  ∧ (clears (setLifecycleConfig prefix w).1 = 1
     ↔ ∃ rules r, fetched w = Some rules ∧ r ∈ rules
                  ∧ has_id (rule_id prefix) r = true).
Proof.
  destruct (fetched w) as [rules|] eqn:Hf.
  - rewrite (setLifecycleConfig_fetched _ _ _ Hf). unfold after_fetch.
    destruct (scan _ rules) as [i|] eqn:Hscan.
    + assert (∃ r, r ∈ rules ∧ has_id (rule_id prefix) r = true) as (r & Hr & Hid).
      { destruct (scan_Some _ _ _ Hscan) as (l1 & r & l2 & -> & _ & Hr & _).
        exists r. split; [|done]. apply elem_of_app. right. left. }
      destruct (delete_lifecycle_reply w); simpl; rewrite ?clears_put_tail.
      * split; [lia|]. split; [|done]. intros _. by exists rules, r.
      * split; [lia|]. split; [|done]. intros _. by exists rules, r.
    + simpl. rewrite clears_put_tail. split; [lia|].
      split; [done|]. intros (rules' & r & [= <-] & Hr & Hid).
      apply scan_None in Hscan.
      rewrite Forall_forall in Hscan. rewrite (Hscan r Hr) in Hid. done.
  - destruct (setLifecycleConfig_not_fetched prefix w Hf) as (e & _ & _ & ->).
    destruct (decide (exn_cls e = ClientError)); simpl;
      (split; [lia|]); (split; [done|]); by intros (? & ? & ? & _).
Qed.

(** C3: when the fetch raises a [ClientError] whose text contains
    [(NoSuchLifecycleConfiguration)], the merge runs exactly as if the fetch
    had returned an empty rule list: it issues no clear, and the one rule
    set it submits holds exactly the newly constructed rule. *)
Theorem no_configuration_is_empty_rule_set (prefix : string) (w : world) (e : exn) :
  get_lifecycle_reply w = inl e →
  exn_cls e = ClientError →
  str_in "(NoSuchLifecycleConfiguration)" (exn_str e) = true →
  setLifecycleConfig prefix w
  = setLifecycleConfig prefix
      (with_fetch w (inr {| Rules := []; ResponseMetadata := None |}))
  ∧ puts (setLifecycleConfig prefix w).1
    = [{| Rules := [newlifecyclerule prefix]; ResponseMetadata := None |}]
  ∧ clears (setLifecycleConfig prefix w).1 = 0.
Proof.
  intros Hget Hcls Hstr.
  assert (fetched w = Some []) as Hf.
  { unfold fetched, no_configuration.
    by rewrite Hget, Hstr, bool_decide_eq_true_2. }
  rewrite (setLifecycleConfig_fetched _ _ _ Hf).
  split.
  - by rewrite (setLifecycleConfig_fetched prefix
                  (with_fetch w (inr {| Rules := []; ResponseMetadata := None |}))
                  [] eq_refl).
  - unfold after_fetch. rewrite scan_nil. simpl.
    by rewrite puts_put_tail, clears_put_tail.
Qed.

Lemma no_configuration_is_empty_rule_set_witness :
  get_lifecycle_reply (world_of (inl no_such_configuration) None None)
  = inl no_such_configuration
  ∧ exn_cls no_such_configuration = ClientError
  ∧ str_in "(NoSuchLifecycleConfiguration)" (exn_str no_such_configuration) = true
  ∧ puts (setLifecycleConfig "abc/report.zip"
            (world_of (inl no_such_configuration) None None)).1
    = [{| Rules := [newlifecyclerule "abc/report.zip"];
          ResponseMetadata := None |}]
  ∧ clears (setLifecycleConfig "abc/report.zip"
              (world_of (inl no_such_configuration) None None)).1 = 0.
Proof.
  assert (get_lifecycle_reply (world_of (inl no_such_configuration) None None)
          = inl no_such_configuration) as Hget by reflexivity.
  assert (exn_cls no_such_configuration = ClientError) as Hcls by reflexivity.
  assert (str_in "(NoSuchLifecycleConfiguration)" (exn_str no_such_configuration)
          = true) as Hstr by (vm_compute; reflexivity).
  split_and!; [exact Hget|exact Hcls|exact Hstr|..];
    apply (no_configuration_is_empty_rule_set "abc/report.zip" _
             no_such_configuration Hget Hcls Hstr).
Defined.

(** C5, as stated, fails: a write-back that fails with an exception other
    than a [ClientError] is not caught, and the process ends with the
    traceback and a non-zero exit status. *)
Lemma write_back_other_exception_aborts :
  put_lifecycle_reply (world_of (response []) None (Some connection_error))
  = Some connection_error
  ∧ (main "demo.zip" "Acme"
       (world_of (response []) None (Some connection_error))).2
    = Raised connection_error
  ∧ exit_status
      (main "demo.zip" "Acme"
         (world_of (response []) None (Some connection_error))).2
    = 1%Z.
Proof. split_and!; vm_compute; reflexivity. Qed.

(** C5, amended: when the write-back is attempted and fails with a
    [ClientError], the error is printed and the run goes on: after the
    upload and its success message come the write-back, the error line and
    the log line, no other call follows the upload, and [main] returns, so
    the exit status is 0. *)
Theorem write_back_client_error_is_not_fatal (filename customer : string)
  (w : world) (e : exn) (cfg' : lifecycle_cfg) :
  put_lifecycle_reply w = Some e →
  exn_cls e = ClientError →
  cfg' ∈ puts (main filename customer w).1 →
  (∃ t, puts t = [] ∧
     main filename customer w
     = (PutObject (upload_args filename customer w)
        :: Print "Upload Successful"
        :: t ++ [BucketLifecyclePut BUCKET_NAME cfg';
                 Print ("Error with lifecycle configuration: " +:+ exn_str e);
                 Print (log_line filename customer w)],
        Val tt))
  ∧ exit_status (main filename customer w).2 = 0%Z.
Proof.
  intros Hput Hcls (Hzip & Hup & Hin)%puts_main.
  destruct (puts_run_fetched _ _ _ Hin) as (rules & Hf & ->).
  rewrite main_uploaded by done.
  rewrite (setLifecycleConfig_fetched _ _ _ Hf) in *.
  unfold after_fetch, put_tail, merged in *. rewrite Hput in *.
  destruct (decide (exn_cls e = ClientError)); [|done].
  destruct (scan _ rules) as [i|].
  - destruct (delete_lifecycle_reply w).
    { simpl in Hin. by apply elem_of_nil in Hin. }
    simpl. split; [|done].
    by exists [GetBucketLifecycleConfiguration BUCKET_NAME;
               BucketLifecycleDelete BUCKET_NAME].
  - simpl. split; [|done].
    by exists [GetBucketLifecycleConfiguration BUCKET_NAME].
Qed.

Lemma write_back_client_error_is_not_fatal_witness :
  put_lifecycle_reply (world_of (response []) None (Some malformed_xml))
  = Some malformed_xml
  ∧ exn_cls malformed_xml = ClientError
  ∧ {| Rules := [newlifecyclerule
                   "ba7816bf8f01cfea414140de5dae2223b00361a396177a9cb410ff61f20015ad/report.zip"];
       ResponseMetadata := None |}
    ∈ puts (main "demo.zip" "Acme"
              (world_of (response []) None (Some malformed_xml))).1
  ∧ exit_status
      (main "demo.zip" "Acme"
         (world_of (response []) None (Some malformed_xml))).2
    = 0%Z.
Proof.
  assert (put_lifecycle_reply (world_of (response []) None (Some malformed_xml))
          = Some malformed_xml) as Hput by reflexivity.
  assert (exn_cls malformed_xml = ClientError) as Hcls by reflexivity.
  assert ({| Rules := [newlifecyclerule
                   "ba7816bf8f01cfea414140de5dae2223b00361a396177a9cb410ff61f20015ad/report.zip"];
             ResponseMetadata := None |}
          ∈ puts (main "demo.zip" "Acme"
                    (world_of (response []) None (Some malformed_xml))).1) as Hin
    by (vm_compute; left).
  split_and!; [exact Hput|exact Hcls|exact Hin|].
  exact (proj2 (write_back_client_error_is_not_fatal "demo.zip" "Acme"
                  _ _ _ Hput Hcls Hin)).
Defined.

(** C8, as stated, fails: for the key [abc/report.zip] the rule the merge
    constructs has the Prefix [abc/report.zip], not the folder [abc/]. *)
Lemma rule_prefix_is_not_digest_folder :
  (λ cfg, (λ rule, dict_get rule "Prefix") <$> last (Rules cfg))
    <$> puts (setLifecycleConfig "abc/report.zip"
                (world_of (response []) None None)).1
  = [Some (PStr "abc/report.zip")]
  ∧ rule_id "abc/report.zip" = "abc"
  ∧ PStr "abc/report.zip" ≠ PStr ("abc" +:+ "/").
Proof. split_and!; [vm_compute; reflexivity|reflexivity|discriminate]. Qed.

(** C8, amended: every rule set submitted during [main] ends with the
    constructed rule, whose ID is the SHA-256 digest of the archive and
    whose Prefix is the whole upload key, the digest followed by
    [/report.zip]. *)
Theorem rule_prefix_is_upload_key (filename customer : string) (w : world)
  (cfg' : lifecycle_cfg) :
  cfg' ∈ puts (main filename customer w).1 →
  ∃ rest rule,
    Rules cfg' = rest ++ [rule]
    ∧ rule = newlifecyclerule (upload_key w)
    ∧ dict_get rule "ID" = PStr (SHA256.hexdigest (file_contents w))
    ∧ dict_get rule "Prefix"
      = PStr (SHA256.hexdigest (file_contents w) +:+ "/" +:+ REPORT_NAME).
Proof.
  intros (_ & _ & Hin)%puts_main.
  destruct (puts_run_fetched _ _ _ Hin) as (rules & _ & ->). simpl.
  unfold merged. eexists _, _. split_and!; [done|done| |].
  - assert (has_id (SHA256.hexdigest (file_contents w))
              (newlifecyclerule (upload_key w)) = true) as Hid.
    { rewrite <-(rule_id_key (SHA256.hexdigest (file_contents w)) REPORT_NAME).
      - apply has_id_newlifecyclerule.
      - destruct (hexdigest_shape (file_contents w)) as [Hlow _].
        intros Hin'. unfold lower_hex in Hlow.
        rewrite Forall_forall in Hlow. specialize (Hlow _ Hin').
        by repeat (apply elem_of_cons in Hlow as [?|Hlow]; [done|]);
          apply elem_of_nil in Hlow. }
    unfold has_id, eq_str in Hid.
    destruct (dict_get _ "ID"); try done.
    by apply bool_decide_eq_true in Hid as ->.
  - apply dict_get_newlifecyclerule_Prefix.
Qed.

Lemma rule_prefix_is_upload_key_witness :
  {| Rules := [existing_rule "ff" 3;
               newlifecyclerule
                 "ba7816bf8f01cfea414140de5dae2223b00361a396177a9cb410ff61f20015ad/report.zip"];
     ResponseMetadata := None |}
  ∈ puts (main "demo.zip" "Acme"
            (world_of (response [existing_rule "ff" 3]) None None)).1
  ∧ ∃ rest rule,
      [existing_rule "ff" 3;
       newlifecyclerule
         "ba7816bf8f01cfea414140de5dae2223b00361a396177a9cb410ff61f20015ad/report.zip"]
      = rest ++ [rule]
      ∧ rule = newlifecyclerule
                 (upload_key (world_of (response [existing_rule "ff" 3]) None None))
      ∧ dict_get rule "ID"
        = PStr (SHA256.hexdigest (list_byte_of_string "abc"))
      ∧ dict_get rule "Prefix"
        = PStr (SHA256.hexdigest (list_byte_of_string "abc")
                +:+ "/" +:+ REPORT_NAME).
Proof.
  assert ({| Rules := [existing_rule "ff" 3;
               newlifecyclerule
                 "ba7816bf8f01cfea414140de5dae2223b00361a396177a9cb410ff61f20015ad/report.zip"];
             ResponseMetadata := None |}
          ∈ puts (main "demo.zip" "Acme"
                    (world_of (response [existing_rule "ff" 3]) None None)).1)
    as Hin by (vm_compute; left).
  split; [exact Hin|].
  exact (rule_prefix_is_upload_key "demo.zip" "Acme" _ _ Hin).
Defined.

(** C7: for every archive that passes the check, [getFolderName] returns the
    SHA-256 of the whole file as 64 lowercase hexadecimal digits; reading in
    chunks of any positive size gives the same digest, and the result
    depends on the file contents only. *)
Theorem getFolderName_sha256 (block : nat) (filename : string) (w : world) :
  0 < block →
  zipfile_reply w = None →
  getFolderName filename w = ([], Val (SHA256.hexdigest (file_contents w)))
  ∧ hash_file block (file_contents w) = SHA256.hexdigest (file_contents w)
  ∧ lower_hex (SHA256.hexdigest (file_contents w))
  ∧ String.length (SHA256.hexdigest (file_contents w)) = 64
  ∧ ∀ filename' w',
      zipfile_reply w' = None → file_contents w' = file_contents w →
      getFolderName filename' w' = getFolderName filename w.
Proof.
  intros Hblock Hzip. split_and!.
  - by apply getFolderName_run.
  - by apply hash_file_sha256.
  - apply hexdigest_shape.
  - apply hexdigest_shape.
  - intros filename' w' Hzip' Hsame.
    rewrite !getFolderName_run by done. by rewrite Hsame.
Qed.

Lemma getFolderName_sha256_witness :
  0 < 2
  ∧ zipfile_reply (world_of (response []) None None) = None
  ∧ getFolderName "demo.zip" (world_of (response []) None None)
    = ([], Val "ba7816bf8f01cfea414140de5dae2223b00361a396177a9cb410ff61f20015ad")
  ∧ hash_file 2 (list_byte_of_string "abc")
    = "ba7816bf8f01cfea414140de5dae2223b00361a396177a9cb410ff61f20015ad".
Proof.
  assert (0 < 2) as Hblock by lia.
  assert (zipfile_reply (world_of (response []) None None) = None) as Hzip
    by reflexivity.
  destruct (getFolderName_sha256 2 "demo.zip" _ Hblock Hzip)
    as (Hrun & Hhash & _).
  split_and!; [exact Hblock|exact Hzip| |].
  - rewrite Hrun. vm_compute. reflexivity.
  - simpl file_contents in Hhash. rewrite Hhash. vm_compute. reflexivity.
Defined.

(** * Further properties *)

(** ** [split], [join] and [in] *)

Lemma split_no_sep (sep : ascii) (s : string) :
  sep ∉ chars s → split sep s = [s].
Proof.
  induction s as [|c s IH]; simpl; intros Hnot; [done|].
  apply not_elem_of_cons in Hnot as [Hc Hs].
  destruct (Ascii.eqb_spec c sep) as [->|_]; [done|].
  by rewrite IH.
Qed.

Lemma split_app (sep : ascii) (a b : string) :
  split sep (a +:+ String sep b) = split sep a ++ split sep b.
Proof.
  induction a as [|c a IH]; simpl.
  - by rewrite Ascii.eqb_refl.
  - destruct (Ascii.eqb c sep); rewrite IH; [done|].
    pose proof (split_nonempty sep a) as Hne.
    by destruct (split sep a).
Qed.

Lemma split_segments (sep : ascii) (s : string) :
  Forall (λ seg, sep ∉ chars seg) (split sep s).
Proof.
  induction s as [|c s IH]; simpl.
  - constructor; [|constructor]. by intros ?%elem_of_nil.
  - destruct (Ascii.eqb_spec c sep) as [->|Hne].
    + constructor; [|done]. by intros ?%elem_of_nil.
    + destruct (split sep s) as [|seg segs]; simpl.
      * constructor; [|constructor].
        intros [?|?%elem_of_nil]%elem_of_cons; done.
      * apply Forall_cons in IH as [Hseg Hsegs].
        constructor; [|done].
        intros [?|?]%elem_of_cons; done.
Qed.

Lemma split_length (sep : ascii) (s : string) :
  length (split sep s) = S (count_char sep s).
Proof.
  induction s as [|c s IH]; simpl; [done|].
  destruct (Ascii.eqb c sep); simpl; [by rewrite IH|].
  pose proof (split_nonempty sep s) as Hne.
  destruct (split sep s); [done|]. simpl in *. lia.
Qed.

Lemma count_char_app (c : ascii) (a b : string) :
  count_char c (a +:+ b) = count_char c a + count_char c b.
Proof.
  induction a as [|c' a IH]; [done|].
  change (count_char c (String c' (a +:+ b))
          = count_char c (String c' a) + count_char c b).
  simpl. rewrite IH. lia.
Qed.

Lemma append_nil_r (s : string) : s +:+ "" = s.
Proof.
  induction s as [|c s IH]; [done|].
  change (String c (s +:+ "") = String c s). by rewrite IH.
Qed.

Lemma append_assoc (a b c : string) : (a +:+ b) +:+ c = a +:+ (b +:+ c).
Proof.
  induction a as [|x a IH]; [done|].
  change (String x ((a +:+ b) +:+ c) = String x (a +:+ (b +:+ c))).
  by rewrite IH.
Qed.

Lemma prefix_spec (p s : string) :
  String.prefix p s = true ↔ ∃ post, s = p +:+ post.
Proof.
  revert s. induction p as [|c p IH]; intros s.
  - split; [|by destruct s]. intros _. by exists s.
  - destruct s as [|c' s]; simpl.
    + split; [done|]. by intros (post & ?).
    + destruct (ascii_dec c c') as [->|Hne].
      * rewrite IH. split; intros (post & Heq); exists post.
        -- by rewrite Heq.
        -- by injection Heq.
      * split; [done|]. intros (post & Heq). by injection Heq.
Qed.

Lemma str_in_unfold (needle hay : string) :
  str_in needle hay
  = String.prefix needle hay
    || match hay with
       | EmptyString => false
       | String _ rest => str_in needle rest
       end.
Proof. by destruct hay. Qed.

Lemma str_in_spec (needle hay : string) :
  str_in needle hay = true ↔ ∃ pre post, hay = pre +:+ needle +:+ post.
Proof.
  split.
  - induction hay as [|c hay IH]; rewrite str_in_unfold.
    + rewrite orb_false_r. intros (post & ->)%prefix_spec. by exists "", post.
    + intros [(post & Heq)%prefix_spec|(pre & post & ->)%IH]%orb_true_iff.
      * by exists "", post.
      * by exists (String c pre), post.
  - intros (pre & post & ->).
    induction pre as [|c pre IH].
    + rewrite str_in_unfold. apply orb_true_iff. left.
      apply prefix_spec. by exists post.
    + change (String c pre +:+ needle +:+ post)
        with (String c (pre +:+ needle +:+ post)).
      rewrite str_in_unfold. cbv beta iota.
      rewrite IH. apply orb_true_r.
Qed.

Lemma no_sep_count (sep : ascii) (s : string) :
  sep ∉ chars s ↔ count_char sep s = 0.
Proof.
  induction s as [|c s IH]; simpl.
  - split; [done|]. by intros _ ?%elem_of_nil.
  - rewrite not_elem_of_cons, IH.
    destruct (Ascii.eqb_spec c sep) as [->|Hne]; simpl.
    + split; [by intros [? _]|lia].
    + split; [by intros [_ ?]|]. intros Hs. split; [congruence|done].
Qed.

Lemma join_split (sep : ascii) (s : string) :
  join (String sep "") (split sep s) = s.
Proof.
  induction s as [|c s IH]; simpl; [done|].
  pose proof (split_nonempty sep s) as Hne.
  destruct (Ascii.eqb_spec c sep) as [->|_].
  - destruct (split sep s) as [|seg segs]; [done|].
    change (join (String sep "") ("" :: seg :: segs))
      with (String sep (join (String sep "") (seg :: segs))).
    by rewrite IH.
  - destruct (split sep s) as [|seg [|seg' segs]]; [done|..]; simpl in *.
    + by rewrite IH.
    + by rewrite <-IH.
Qed.

Lemma split_join (sep : ascii) (l : list string) :
  l ≠ [] → Forall (λ s, sep ∉ chars s) l →
  split sep (join (String sep "") l) = l.
Proof.
  intros Hne Hall. induction Hall as [|s l Hs Hl IH]; [done|].
  destruct l as [|s' l].
  - simpl. by apply split_no_sep.
  - change (join (String sep "") (s :: s' :: l))
      with (s +:+ String sep ("" +:+ join (String sep "") (s' :: l))).
    change ("" +:+ join (String sep "") (s' :: l))
      with (join (String sep "") (s' :: l)).
    rewrite split_app, split_no_sep, IH by done. done.
Qed.

Lemma count_char_join (sep : ascii) (l : list string) :
  l ≠ [] →
  count_char sep (join (String sep "") l)
  = length l - 1 + foldr (λ s n, count_char sep s + n) 0 l.
Proof.
  intros Hne. induction l as [|s l IH]; [done|].
  destruct l as [|s' l].
  - simpl. lia.
  - change (join (String sep "") (s :: s' :: l))
      with (s +:+ String sep (join (String sep "") (s' :: l))).
    rewrite count_char_app.
    cbn [count_char]. rewrite Ascii.eqb_refl, IH by done.
    simpl. lia.
Qed.

(** ** Runs of [uploadToS3] and of [main] that stop early *)

Lemma uploadToS3_run (filename targetfolder customer contenttype : string)
  (w : world) :
  (∀ e, zipfile_reply w = Some e → exn_cls e ≠ IOError) →
  uploadToS3 filename targetfolder customer contenttype w
  = let args :=
      {| Body := file_contents w;
         Bucket := BUCKET_NAME;
         Key := targetfolder +:+ "/" +:+ REPORT_NAME;
         ACL := S3_ACL;
         ContentType := contenttype;
         ServerSideEncryption := SSENCRYPT;
         Metadata := {[ "customer" := customer;
                        "originalFile" := basename filename ]} |} in
    match put_object_reply w with
    | inl e => ([PutObject args], Raised e)
    | inr status =>
        if decide (status = 200%Z)
        then ([PutObject args; Print "Upload Successful"],
              Val (targetfolder +:+ "/" +:+ REPORT_NAME))
        else ([PutObject args;
               Print ("Upload failed - HTTPStatusCode " +:+ pretty status)],
              SysExit 1%Z)
    end.
Proof.
  intros Hopen.
  unfold uploadToS3, mbind, M_bind, open_rb, S3CLIENT_put_object,
    print, sys_exit, mret, M_ret, reply.
  assert (match zipfile_reply w with
          | Some e =>
              if decide (exn_cls e = IOError) then Raised e
              else Val (file_contents w)
          | None => Val (file_contents w)
          end = Val (file_contents w)) as ->.
  { destruct (zipfile_reply w) as [e|]; [|done].
    destruct (decide (exn_cls e = IOError)) as [Hc|_]; [|done].
    by destruct (Hopen e eq_refl). }
  destruct (put_object_reply w) as [e|status]; [done|].
  cbn [app]. destruct (decide (status = 200%Z)) as [->|Hne].
  - by rewrite bool_decide_eq_false_2 by (intros H; by apply H).
  - by rewrite bool_decide_eq_true_2 by done.
Qed.

(** A file that cannot be opened is not uploaded: [open] raises before any
    request is sent. *)
Lemma uploadToS3_unreadable (filename targetfolder customer contenttype : string)
  (w : world) (e : exn) :
  zipfile_reply w = Some e → exn_cls e = IOError →
  uploadToS3 filename targetfolder customer contenttype w = ([], Raised e).
Proof.
  intros Hzip Hcls.
  unfold uploadToS3, mbind, M_bind, open_rb.
  rewrite Hzip. by destruct (decide (exn_cls e = IOError)).
Qed.

Lemma can_open_cases (w : world) :
  (∀ e, zipfile_reply w = Some e → exn_cls e ≠ IOError)
  ∨ ∃ e, zipfile_reply w = Some e ∧ exn_cls e = IOError.
Proof.
  destruct (zipfile_reply w) as [e|]; [|by left].
  destruct (decide (exn_cls e = IOError)) as [Hc|Hc].
  - right. by exists e.
  - left. by intros e' [= <-].
Qed.

Lemma can_open_accepted (w : world) :
  zipfile_reply w = None → ∀ e, zipfile_reply w = Some e → exn_cls e ≠ IOError.
Proof. by intros -> e. Qed.

Lemma main_archive_rejected (filename customer : string) (w : world) (e : exn) :
  zipfile_reply w = Some e →
  main filename customer w
  = match exn_cls e with
    | IOError => ([Print (exn_str e)], SysExit 1%Z)
    | BadZipfile =>
        ([Print ("Error: " +:+ exn_str e +:+ " " +:+ filename)], SysExit 1%Z)
    | _ => ([], Raised e)
    end.
Proof.
  intros Hzip. unfold main. unfold mbind at 1. unfold M_bind.
  unfold getFolderName, verifyzip, mbind, M_bind, try_except,
    zipfile_ZipFile_testzip, print, sys_exit, reply_unit.
  rewrite Hzip. by destruct e as [[] msg].
Qed.

Lemma main_upload_failed (filename customer : string) (w : world) :
  zipfile_reply w = None →
  put_object_reply w ≠ inr 200%Z →
  main filename customer w
  = match put_object_reply w with
    | inl e => ([PutObject (upload_args filename customer w)], Raised e)
    | inr status =>
        ([PutObject (upload_args filename customer w);
          Print ("Upload failed - HTTPStatusCode " +:+ pretty status)],
         SysExit 1%Z)
    end.
Proof.
  intros Hzip Hne. unfold main. unfold mbind at 1. unfold M_bind.
  rewrite getFolderName_run by done.
  unfold mbind at 1. unfold M_bind.
  rewrite uploadToS3_run by (by apply can_open_accepted). cbv zeta.
  fold (upload_key w). fold (upload_args filename customer w).
  destruct (put_object_reply w) as [e|status]; [done|].
  destruct (decide (status = 200%Z)) as [->|_]; done.
Qed.




Lemma with_id_nil_iff (d : string) (rules : list (gmap string pyval)) :
  with_id d rules = [] ↔ scan d rules = None.
Proof.
  rewrite scan_None. split.
  - unfold with_id. induction rules as [|r rules IH]; [constructor|].
    destruct (has_id d r) eqn:Hr.
    + by rewrite filter_cons_True.
    + rewrite filter_cons_False by (by rewrite Hr). intros ?%IH. by constructor.
  - apply with_id_none.
Qed.

(** ** The remote calls of a run *)


(** X2: when the archive check fails, [main] makes no remote call at all:
    an [IOError] or a [BadZipfile] is printed and the process exits with
    status 1, any other exception propagates. *)
Theorem archive_failure_before_network (filename customer : string)
  (w : world) (e : exn) :
  zipfile_reply w = Some e →
  remote (main filename customer w).1 = []
  ∧ exit_status (main filename customer w).2 = 1%Z
  ∧ printed (main filename customer w).1
    = match exn_cls e with
      | IOError => [exn_str e]
      | BadZipfile => ["Error: " +:+ exn_str e +:+ " " +:+ filename]
      | _ => []
      end.
Proof.
  intros Hzip. rewrite (main_archive_rejected _ _ _ _ Hzip).
  by destruct (exn_cls e).
Qed.

Lemma archive_failure_before_network_witness :
  zipfile_reply (world_with (Some bad_zipfile) (inr 200%Z) (response []) None None)
  = Some bad_zipfile
  ∧ remote (main "demo.zip" "Acme"
              (world_with (Some bad_zipfile) (inr 200%Z) (response []) None None)).1
    = []
  ∧ printed (main "demo.zip" "Acme"
               (world_with (Some bad_zipfile) (inr 200%Z) (response []) None None)).1
    = ["Error: File is not a zip file demo.zip"].
Proof.
  assert (zipfile_reply
            (world_with (Some bad_zipfile) (inr 200%Z) (response []) None None)
          = Some bad_zipfile) as Hzip by reflexivity.
  destruct (archive_failure_before_network "demo.zip" "Acme" _ _ Hzip)
    as (Hremote & _ & Hprinted).
  split_and!; [exact Hzip|exact Hremote|exact Hprinted].
Defined.

(** X3: when the upload does not answer with status 200, [main] makes no
    lifecycle call: the upload is the only remote call, a status other than
    200 is printed in decimal, and the exit status is 1. *)
Theorem upload_failure_skips_lifecycle (filename customer : string) (w : world) :
  zipfile_reply w = None →
  put_object_reply w ≠ inr 200%Z →
  remote (main filename customer w).1
  = [PutObject (upload_args filename customer w)]
  ∧ exit_status (main filename customer w).2 = 1%Z
  ∧ printed (main filename customer w).1
    = match put_object_reply w with
      | inl _ => []
      | inr status => ["Upload failed - HTTPStatusCode " +:+ pretty status]
      end.
Proof.
  intros Hzip Hput. rewrite main_upload_failed by done.
  by destruct (put_object_reply w).
Qed.

Lemma upload_failure_skips_lifecycle_witness :
  zipfile_reply (world_with None (inr 403%Z) (response []) None None) = None
  ∧ put_object_reply (world_with None (inr 403%Z) (response []) None None)
    ≠ inr 200%Z
  ∧ printed (main "demo.zip" "Acme"
               (world_with None (inr 403%Z) (response []) None None)).1
    = ["Upload failed - HTTPStatusCode 403"].
Proof.
  assert (zipfile_reply (world_with None (inr 403%Z) (response []) None None)
          = None) as Hzip by reflexivity.
  assert (put_object_reply (world_with None (inr 403%Z) (response []) None None)
          ≠ inr 200%Z) as Hput by discriminate.
  destruct (upload_failure_skips_lifecycle "demo.zip" "Acme" _ Hzip Hput)
    as (_ & _ & Hprinted).
  split_and!; [exact Hzip|exact Hput|exact Hprinted].
Defined.




(** ** The log line *)

Lemma hexdigest_chars (c : ascii) (msg : list byte) :
  c ∉ chars "0123456789abcdef" → c ∉ chars (SHA256.hexdigest msg).
Proof.
  intros Hnot Hin.
  destruct (hexdigest_shape msg) as [Hlow _]. unfold lower_hex in Hlow.
  rewrite Forall_forall in Hlow. by apply Hnot, Hlow.
Qed.

Lemma comma_not_hex : ","%char ∉ chars "0123456789abcdef".
Proof.
  intros Hin.
  by repeat (apply elem_of_cons in Hin as [?|Hin]; [done|]);
    apply elem_of_nil in Hin.
Qed.

Lemma main_returned (filename customer : string) (w : world) :
  (main filename customer w).2 = Val tt →
  zipfile_reply w = None ∧ put_object_reply w = inr 200%Z
  ∧ (setLifecycleConfig (upload_key w) w).2 = Val tt.
Proof.
  destruct (zipfile_reply w) as [e|] eqn:Hzip.
  { rewrite (main_archive_rejected _ _ _ _ Hzip). by destruct (exn_cls e). }
  assert (put_object_reply w = inr 200%Z ∨ put_object_reply w ≠ inr 200%Z)
    as [Hput|Hput].
  { destruct (put_object_reply w) as [e|status]; [by right|].
    destruct (decide (status = 200%Z)) as [->|?]; [by left|right; congruence]. }
  - rewrite main_uploaded by done. by cbn [snd].
  - rewrite main_upload_failed by done. by destruct (put_object_reply w).
Qed.

(** X5: when [main] returns, the last thing it does is print the log
    line; if the timestamp, the customer and the file name hold no comma,
    splitting the line at the commas gives back the timestamp, the
    customer, the base name of the file and the digest. *)
Theorem main_log_line_fields (filename customer : string) (w : world) :
  (main filename customer w).2 = Val tt →
  ","%char ∉ chars (datetime_now w) →
  ","%char ∉ chars customer →
  ","%char ∉ chars (basename filename) →
  last (main filename customer w).1 = Some (Print (log_line filename customer w))
  ∧ split "," (log_line filename customer w)
    = [datetime_now w; customer; basename filename;
       SHA256.hexdigest (file_contents w)].
Proof.
  intros (Hzip & Hput & Hret)%main_returned Hts Hcust Hbase. split.
  - rewrite main_uploaded by done. rewrite Hret. cbn [fst].
    rewrite !app_comm_cons. apply last_snoc.
  - unfold log_line. apply (split_join ","); [done|].
    repeat (constructor; [done|]).
    constructor; [|constructor]. apply hexdigest_chars, comma_not_hex.
Qed.

Lemma main_log_line_fields_witness :
  (main "in/demo.zip" "Acme" (world_of (response []) None None)).2 = Val tt
  ∧ split ","
      (log_line "in/demo.zip" "Acme" (world_of (response []) None None))
    = ["2017-03-01 10:00:00.000000"; "Acme"; "demo.zip";
       "ba7816bf8f01cfea414140de5dae2223b00361a396177a9cb410ff61f20015ad"].
Proof.
  assert ((main "in/demo.zip" "Acme" (world_of (response []) None None)).2
          = Val tt) as Hret by (vm_compute; reflexivity).
  assert (∀ s, count_char "," s = 0 → ","%char ∉ chars s) as Hno
    by (intros s; apply no_sep_count).
  destruct (main_log_line_fields "in/demo.zip" "Acme" _ Hret
              (Hno "2017-03-01 10:00:00.000000" eq_refl) (Hno "Acme" eq_refl)
              (Hno (basename "in/demo.zip") eq_refl))
    as [_ Hfields].
  split; [exact Hret|].
  rewrite Hfields. vm_compute. reflexivity.
Defined.

(** X6: the log line has four comma-separated fields plus one for every
    comma in the timestamp, the customer and the base name of the file: a
    customer name with a comma shifts the fields. *)
Theorem log_line_field_count (filename customer : string) (w : world) :
  length (split "," (log_line filename customer w))
  = 4 + count_char "," (datetime_now w) + count_char "," customer
    + count_char "," (basename filename).
Proof.
  rewrite split_length. unfold log_line.
  rewrite (count_char_join ",") by done. simpl.
  assert (count_char "," (SHA256.hexdigest (file_contents w)) = 0) as ->.
  { apply no_sep_count, hexdigest_chars, comma_not_hex. }
  lia.
Qed.

(** ** The clear and the write-back *)

(** X7: when an old rule is found and the clear raises, the run ends
    there: the trace is the fetch and the clear, no write-back is issued,
    and the exception propagates out of the merge. *)
Theorem clear_raised_no_write_back (prefix : string) (w : world)
  (rules : list (gmap string pyval)) (e : exn) :
  fetched w = Some rules →
  with_id (rule_id prefix) rules ≠ [] →
  delete_lifecycle_reply w = Some e →
  setLifecycleConfig prefix w
  = ([GetBucketLifecycleConfiguration BUCKET_NAME;
      BucketLifecycleDelete BUCKET_NAME], Raised e).
Proof.
  intros Hf Hne Hdel. rewrite (setLifecycleConfig_fetched _ _ _ Hf).
  unfold after_fetch. rewrite Hdel.
  destruct (scan _ rules) eqn:Hscan; [done|].
  by apply with_id_nil_iff in Hscan.
Qed.

Lemma clear_raised_no_write_back_witness :
  fetched (world_of (response [existing_rule "abc" 7]) (Some access_denied) None)
  = Some [existing_rule "abc" 7]
  ∧ delete_lifecycle_reply
      (world_of (response [existing_rule "abc" 7]) (Some access_denied) None)
    = Some access_denied
  ∧ setLifecycleConfig "abc/report.zip"
      (world_of (response [existing_rule "abc" 7]) (Some access_denied) None)
    = ([GetBucketLifecycleConfiguration BUCKET_NAME;
        BucketLifecycleDelete BUCKET_NAME], Raised access_denied).
Proof.
  split_and!; [reflexivity|reflexivity|].
  apply (clear_raised_no_write_back "abc/report.zip" _ [existing_rule "abc" 7]);
    [reflexivity|vm_compute; discriminate|reflexivity].
Defined.

(** X8: when an old rule is found, the clear goes through and the
    write-back then fails with a [ClientError], [main] still returns with
    exit status 0: its remote calls are the upload, the fetch, the clear
    and the failed write-back, and nothing is written after the clear. *)
Theorem failed_write_back_after_clear (filename customer : string) (w : world)
  (rules : list (gmap string pyval)) (e : exn) :
  zipfile_reply w = None →
  put_object_reply w = inr 200%Z →
  fetched w = Some rules →
  with_id (rule_id (upload_key w)) rules ≠ [] →
  delete_lifecycle_reply w = None →
  put_lifecycle_reply w = Some e →
  exn_cls e = ClientError →
  main filename customer w
  = ([PutObject (upload_args filename customer w);
      Print "Upload Successful";
      GetBucketLifecycleConfiguration BUCKET_NAME;
      BucketLifecycleDelete BUCKET_NAME;
      BucketLifecyclePut BUCKET_NAME
        {| Rules := merged (upload_key w) rules; ResponseMetadata := None |};
      Print ("Error with lifecycle configuration: " +:+ exn_str e);
      Print (log_line filename customer w)],
     Val tt)
  ∧ exit_status (main filename customer w).2 = 0%Z.
Proof.
  intros Hzip Hput Hf Hne Hdel Hwrite Hcls.
  rewrite main_uploaded by done.
  rewrite (setLifecycleConfig_fetched _ _ _ Hf).
  unfold after_fetch, put_tail, merged. rewrite Hdel, Hwrite.
  destruct (decide (exn_cls e = ClientError)); [|done].
  destruct (scan _ rules) eqn:Hscan; [done|].
  by apply with_id_nil_iff in Hscan.
Qed.

Lemma failed_write_back_after_clear_witness :
  exit_status
    (main "demo.zip" "Acme"
       (world_of
          (response
             [existing_rule
                "ba7816bf8f01cfea414140de5dae2223b00361a396177a9cb410ff61f20015ad" 7])
          None (Some malformed_xml))).2
  = 0%Z
  ∧ clears
      (main "demo.zip" "Acme"
         (world_of
            (response
               [existing_rule
                  "ba7816bf8f01cfea414140de5dae2223b00361a396177a9cb410ff61f20015ad" 7])
            None (Some malformed_xml))).1
    = 1.
Proof.
  destruct (failed_write_back_after_clear "demo.zip" "Acme"
              (world_of
                 (response
                    [existing_rule
                       "ba7816bf8f01cfea414140de5dae2223b00361a396177a9cb410ff61f20015ad" 7])
                 None (Some malformed_xml))
              [existing_rule
                 "ba7816bf8f01cfea414140de5dae2223b00361a396177a9cb410ff61f20015ad" 7]
              malformed_xml)
    as [Hrun Hexit];
    [reflexivity|reflexivity|reflexivity|vm_compute; discriminate
    |reflexivity|reflexivity|reflexivity|].
  split; [exact Hexit|]. by rewrite Hrun.
Defined.

(** ** The submitted rule set *)

(** X9: the response metadata that comes with the fetched configuration is
    never sent back: every configuration the merge submits has none. *)
Theorem submitted_without_response_metadata (prefix : string) (w : world)
  (cfg' : lifecycle_cfg) :
  cfg' ∈ puts (setLifecycleConfig prefix w).1 →
  ResponseMetadata cfg' = None.
Proof. by intros (rules & _ & ->)%puts_run_fetched. Qed.

Lemma submitted_without_response_metadata_witness :
  get_lifecycle_reply (world_of (response [existing_rule "ff" 3]) None None)
  = inr {| Rules := [existing_rule "ff" 3];
           ResponseMetadata := Some (PDict {[ "HTTPStatusCode" := PInt 200%Z ]}) |}
  ∧ ∃ cfg',
      cfg' ∈ puts (setLifecycleConfig "abc/report.zip"
                     (world_of (response [existing_rule "ff" 3]) None None)).1
      ∧ ResponseMetadata cfg' = None.
Proof.
  split; [reflexivity|].
  assert ({| Rules := [existing_rule "ff" 3; newlifecyclerule "abc/report.zip"];
             ResponseMetadata := None |}
          ∈ puts (setLifecycleConfig "abc/report.zip"
                    (world_of (response [existing_rule "ff" 3]) None None)).1)
    as Hin by (vm_compute; left).
  eexists. split; [exact Hin|].
  exact (submitted_without_response_metadata _ _ _ Hin).
Defined.



(** X11: a fetched rule that has no [ID] key, or whose [ID] is not a
    string, is never taken for the old rule: it is in every rule set the
    merge submits. *)
Theorem rule_without_string_id_survives (prefix : string) (w : world)
  (rules : list (gmap string pyval)) (cfg' : lifecycle_cfg)
  (rule : gmap string pyval) :
  fetched w = Some rules →
  cfg' ∈ puts (setLifecycleConfig prefix w).1 →
  rule ∈ rules →
  (∀ s, rule !! "ID" ≠ Some (PStr s)) →
  rule ∈ Rules cfg'.
Proof.
  intros Hf Hin Hrule Hid.
  assert (has_id (rule_id prefix) rule = false) as Hno.
  { unfold has_id, dict_get, eq_str.
    destruct (rule !! "ID") as [[]|] eqn:Hlook; try done.
    by destruct (Hid s). }
  rewrite (puts_run_elem _ _ _ _ Hf Hin). simpl.
  destruct (merged_cases prefix rules)
    as [(_ & _ & ->)|(l1 & r & l2 & -> & _ & Hr & _ & ->)].
  - apply elem_of_app. by left.
  - apply elem_of_app in Hrule as [?|[->|?]%elem_of_cons].
    + apply elem_of_app. by left.
    + congruence.
    + apply elem_of_app. right. apply elem_of_app. by left.
Qed.

Lemma rule_without_string_id_survives_witness :
  ({[ "Prefix" := PStr "logs/" ]} : gmap string pyval)
  ∈ [{[ "Prefix" := PStr "logs/" ]}; newlifecyclerule "abc/report.zip"].
Proof.
  apply (rule_without_string_id_survives "abc/report.zip"
           (world_of (response [{[ "Prefix" := PStr "logs/" ]}]) None None)
           [{[ "Prefix" := PStr "logs/" ]}]
           {| Rules := [{[ "Prefix" := PStr "logs/" ]};
                        newlifecyclerule "abc/report.zip"];
              ResponseMetadata := None |}).
  - reflexivity.
  - vm_compute. left.
  - left.
  - intros s. vm_compute. discriminate.
Defined.

(** ** Keys, identifiers and file names *)

Lemma rule_id_prefix (prefix : string) :
  ∃ rest, prefix = rule_id prefix +:+ rest
          ∧ (rest = "" ∨ ∃ r, rest = String "/" r).
Proof.
  unfold rule_id, subscript.
  induction prefix as [|c p (rest & Heq & Hrest)]; simpl.
  - exists "". by split; [|left].
  - destruct (Ascii.eqb_spec c "/") as [->|Hne]; simpl.
    + exists (String "/" p). split; [done|]. right. by exists p.
    + pose proof (split_nonempty "/" p) as Hnil.
      destruct (split "/" p) as [|seg segs]; [done|]. simpl in *.
      exists rest. split; [|done].
      change (String c seg +:+ rest) with (String c (seg +:+ rest)).
      by rewrite <-Heq.
Qed.

(** X12: the ID of the constructed rule is the upload key up to its first
    slash, and the whole key when it has none: the ID holds no slash and
    the key is the ID followed by nothing or by a slash and the rest. *)
Theorem newlifecyclerule_id_shape (prefix : string) :
  ∃ id rest,
    dict_get (newlifecyclerule prefix) "ID" = PStr id
    ∧ ("/"%char ∉ chars id)
    ∧ prefix = id +:+ rest
    ∧ (rest = "" ∨ ∃ r, rest = String "/" r).
Proof.
  destruct (rule_id_prefix prefix) as (rest & Heq & Hrest).
  exists (rule_id prefix), rest. split_and!; [|  |done|done].
  - unfold dict_get, newlifecyclerule.
    rewrite !lookup_insert_ne by done. by rewrite lookup_singleton_eq.
  - pose proof (split_segments "/" prefix) as Hall.
    pose proof (split_nonempty "/" prefix) as Hnil.
    unfold rule_id, subscript.
    destruct (split "/" prefix) as [|seg segs]; [done|].
    by apply Forall_cons in Hall as [? _].
Qed.

Lemma basename_last (dir name : string) :
  "/"%char ∉ chars name → basename (dir +:+ "/" +:+ name) = name.
Proof.
  intros Hname. unfold basename.
  change (dir +:+ "/" +:+ name) with (dir +:+ String "/" name).
  rewrite split_app, (split_no_sep "/" name) by done.
  by rewrite last_snoc.
Qed.

Lemma basename_plain (name : string) :
  "/"%char ∉ chars name → basename name = name.
Proof. intros Hname. unfold basename. by rewrite split_no_sep. Qed.

(** X13: when the file can be opened, [uploadToS3] sends one request
    whatever the upload answers: the file's bytes under the key
    [<targetfolder>/report.zip], with the customer and, as [originalFile],
    the last component of the local path in the metadata.  When the file
    cannot be opened, [open] raises and no request is sent. *)
Theorem upload_request (filename name targetfolder customer contenttype : string)
  (w : world) :
  "/"%char ∉ chars name →
  filename = name ∨ (∃ dir, filename = dir +:+ "/" +:+ name) →
  (∀ e, zipfile_reply w = Some e → exn_cls e = IOError →
        uploadToS3 filename targetfolder customer contenttype w
        = ([], Raised e))
  ∧ ((∀ e, zipfile_reply w = Some e → exn_cls e ≠ IOError) →
     ∃ args,
       remote (uploadToS3 filename targetfolder customer contenttype w).1
       = [PutObject args]
       ∧ Body args = file_contents w
       ∧ Key args = targetfolder +:+ "/" +:+ REPORT_NAME
       ∧ Metadata args !! "customer" = Some customer
       ∧ Metadata args !! "originalFile" = Some name).
Proof.
  intros Hname Hfile. split.
  { intros e Hzip Hcls. by apply uploadToS3_unreadable. }
  intros Hopen.
  assert (basename filename = name) as Hbase.
  { destruct Hfile as [->|(dir & ->)];
      [by apply basename_plain|by apply basename_last]. }
  rewrite uploadToS3_run by done. cbv zeta. rewrite Hbase.
  eexists. split.
  - destruct (put_object_reply w) as [e|status]; [done|].
    by destruct (decide (status = 200%Z)).
  - simpl. split_and!; [done|done| |].
    + by rewrite lookup_insert_eq.
    + rewrite lookup_insert_ne by done. by rewrite lookup_singleton_eq.
Qed.

Lemma upload_request_witness :
  ("/"%char ∉ chars "demo.zip")
  ∧ uploadToS3 "/tmp/in/demo.zip" "abc" "Acme" "application/zip"
      (world_with (Some no_such_file) (inr 200%Z) (response []) None None)
    = ([], Raised no_such_file)
  ∧ ∃ args,
      remote (uploadToS3 "/tmp/in/demo.zip" "abc" "Acme" "application/zip"
                (world_with None (inr 500%Z) (response []) None None)).1
      = [PutObject args]
      ∧ Body args = list_byte_of_string "abc"
      ∧ Key args = "abc" +:+ "/" +:+ REPORT_NAME
      ∧ Metadata args !! "customer" = Some "Acme"
      ∧ Metadata args !! "originalFile" = Some "demo.zip".
Proof.
  assert ("/"%char ∉ chars "demo.zip") as Hname by (by apply no_sep_count).
  assert ("/tmp/in/demo.zip" = "demo.zip"
          ∨ ∃ dir, "/tmp/in/demo.zip" = dir +:+ "/" +:+ "demo.zip") as Hfile
    by (right; by exists "/tmp/in").
  split_and!; [exact Hname| |].
  - exact (proj1 (upload_request "/tmp/in/demo.zip" "demo.zip" "abc" "Acme"
             "application/zip"
             (world_with (Some no_such_file) (inr 200%Z) (response []) None None)
             Hname Hfile) no_such_file eq_refl eq_refl).
  - apply (proj2 (upload_request "/tmp/in/demo.zip" "demo.zip" "abc" "Acme"
             "application/zip"
             (world_with None (inr 500%Z) (response []) None None)
             Hname Hfile)).
    by intros e [=].
Defined.

(** X14: [uploadToS3] returns only when the upload answers 200, and what it
    returns is the key of the request; for a target folder without a slash
    the rule identifier derived from that key is the target folder. *)
Theorem uploadToS3_returns_key (filename targetfolder customer contenttype : string)
  (w : world) (prefix : string) :
  (uploadToS3 filename targetfolder customer contenttype w).2 = Val prefix →
  "/"%char ∉ chars targetfolder →
  put_object_reply w = inr 200%Z
  ∧ prefix = targetfolder +:+ "/" +:+ REPORT_NAME
  ∧ rule_id prefix = targetfolder.
Proof.
  destruct (can_open_cases w) as [Hopen|(e & Hzip & Hcls)].
  2: { by rewrite (uploadToS3_unreadable _ _ _ _ _ _ Hzip Hcls). }
  rewrite uploadToS3_run by done. cbv zeta. intros Hret Hnot.
  destruct (put_object_reply w) as [e|status]; [done|].
  destruct (decide (status = 200%Z)) as [->|_]; [|done].
  injection Hret as <-. split_and!; [done|done|].
  by apply rule_id_key.
Qed.

Lemma uploadToS3_returns_key_witness :
  (uploadToS3 "demo.zip" "abc" "Acme" "application/zip"
     (world_of (response []) None None)).2 = Val "abc/report.zip"
  ∧ rule_id "abc/report.zip" = "abc".
Proof.
  assert ((uploadToS3 "demo.zip" "abc" "Acme" "application/zip"
             (world_of (response []) None None)).2 = Val "abc/report.zip")
    as Hret by reflexivity.
  assert ("/"%char ∉ chars "abc") as Hnot by (by apply no_sep_count).
  split; [exact Hret|].
  exact (proj2 (proj2 (uploadToS3_returns_key _ _ _ _ _ _ Hret Hnot))).
Defined.

(** X15: after a failed fetch the merge goes on to the write-back exactly
    when the failure is a [ClientError] whose text contains
    [(NoSuchLifecycleConfiguration)] somewhere, whatever else the text
    says. *)
Theorem recovered_iff_marker_in_text (prefix : string) (w : world) (e : exn) :
  get_lifecycle_reply w = inl e →
  puts (setLifecycleConfig prefix w).1 ≠ []
  ↔ exn_cls e = ClientError
    ∧ ∃ pre post,
        exn_str e = pre +:+ "(NoSuchLifecycleConfiguration)" +:+ post.
Proof.
  intros Hget. rewrite <-str_in_spec.
  destruct (fetched w) as [rules|] eqn:Hf.
  - unfold fetched in Hf. rewrite Hget in Hf.
    destruct (no_configuration e) eqn:Hno; [|done].
    unfold no_configuration in Hno. apply andb_true_iff in Hno as [Hc Hs].
    apply bool_decide_eq_true in Hc.
    split; [done|]. intros _.
    assert (fetched w = Some []) as Hf'.
    { unfold fetched, no_configuration.
      by rewrite Hget, Hs, bool_decide_eq_true_2. }
    rewrite (setLifecycleConfig_fetched _ _ _ Hf').
    unfold after_fetch. by rewrite scan_nil.
  - destruct (setLifecycleConfig_not_fetched prefix w Hf)
      as (e' & Hget' & Hno & ->).
    rewrite Hget in Hget'. injection Hget' as <-.
    split.
    + by destruct (decide (exn_cls e = ClientError)).
    + intros [Hc Hs]. unfold no_configuration in Hno.
      by rewrite Hs, bool_decide_eq_true_2 in Hno.
Qed.

Lemma recovered_iff_marker_in_text_witness :
  let e := Exn ClientError
    "An error occurred (AccessDenied) when calling the GetBucketLifecycleConfiguration operation: denied, not (NoSuchLifecycleConfiguration)" in
  get_lifecycle_reply (world_of (inl e) None None) = inl e
  ∧ puts (setLifecycleConfig "abc/report.zip" (world_of (inl e) None None)).1
    ≠ [].
Proof.
  intros e.
  assert (get_lifecycle_reply (world_of (inl e) None None) = inl e) as Hget
    by reflexivity.
  split; [exact Hget|].
  apply (recovered_iff_marker_in_text "abc/report.zip" _ e Hget).
  split; [reflexivity|].
  by exists "An error occurred (AccessDenied) when calling the GetBucketLifecycleConfiguration operation: denied, not ", "".
Defined.

(** ** list_all_objects.py *)

Lemma for_objects_pre (pre : list (string * ListAllObjects.s3object))
  (rest : list (string * (exn + ListAllObjects.s3object)))
  (objs_end : option exn) :
  ListAllObjects.printed
    (ListAllObjects.for_objects
       (((λ ko, (ko.1, inr ko.2)) <$> pre) ++ rest) objs_end).1
  = ((λ ko, ListAllObjects.line ko.1 ko.2) <$> pre)
    ++ ListAllObjects.printed (ListAllObjects.for_objects rest objs_end).1
  ∧ ListAllObjects.heads
      (ListAllObjects.for_objects
         (((λ ko, (ko.1, inr ko.2)) <$> pre) ++ rest) objs_end).1
    = (fst <$> pre)
      ++ ListAllObjects.heads (ListAllObjects.for_objects rest objs_end).1
  ∧ (ListAllObjects.for_objects
       (((λ ko, (ko.1, inr ko.2)) <$> pre) ++ rest) objs_end).2
    = (ListAllObjects.for_objects rest objs_end).2.
Proof.
  induction pre as [|[key obj] pre (IH1 & IH2 & IH3)]; [done|].
  rewrite !fmap_cons. cbn [app ListAllObjects.for_objects fst snd].
  destruct (ListAllObjects.for_objects _ objs_end) as [t o].
  cbn [fst snd ListAllObjects.printed ListAllObjects.heads] in *.
  by rewrite IH1, IH2, IH3.
Qed.

(** X16: when every HEAD request succeeds, the listing script sends one HEAD
    request per listed object and prints one line per object, in the order
    of the listing; it ends as the listing ends, normally or with the
    listing's exception after the lines of the objects listed before it. *)
Theorem listing_prints_every_object (b : ListAllObjects.bucket)
  (objs : list (string * ListAllObjects.s3object)) :
  ListAllObjects.objects b = (λ ko, (ko.1, inr ko.2)) <$> objs →
  ListAllObjects.printed (ListAllObjects.script b).1
  = (λ ko, ListAllObjects.line ko.1 ko.2) <$> objs
  ∧ ListAllObjects.heads (ListAllObjects.script b).1 = fst <$> objs
  ∧ (ListAllObjects.script b).2 = reply_unit (ListAllObjects.objects_end b).
Proof.
  intros Hobjs. unfold ListAllObjects.script. rewrite Hobjs.
  destruct (for_objects_pre objs [] (ListAllObjects.objects_end b))
    as (Hprinted & Hheads & Hend).
  rewrite app_nil_r in Hprinted, Hheads, Hend.
  rewrite Hprinted, Hheads, Hend. simpl. by rewrite !app_nil_r.
Qed.

Lemma listing_prints_every_object_witness :
  ListAllObjects.printed
    (ListAllObjects.script
       {| ListAllObjects.objects :=
            [("abc/report.zip",
              inr {| ListAllObjects.metadata := "{'customer': 'Acme'}";
                     ListAllObjects.last_modified := "2017-03-01 10:00:00+00:00";
                     ListAllObjects.expiration := None |});
             ("ff/report.zip",
              inr {| ListAllObjects.metadata := "{}";
                     ListAllObjects.last_modified := "2017-03-02 10:00:00+00:00";
                     ListAllObjects.expiration := Some "expiry-date" |})];
          ListAllObjects.objects_end := None |}).1
  = ["abc/report.zip,{'customer': 'Acme'},2017-03-01 10:00:00+00:00,None";
     "ff/report.zip,{},2017-03-02 10:00:00+00:00,expiry-date"].
Proof.
  exact (proj1 (listing_prints_every_object
    {| ListAllObjects.objects :=
         [("abc/report.zip",
           inr {| ListAllObjects.metadata := "{'customer': 'Acme'}";
                  ListAllObjects.last_modified := "2017-03-01 10:00:00+00:00";
                  ListAllObjects.expiration := None |});
          ("ff/report.zip",
           inr {| ListAllObjects.metadata := "{}";
                  ListAllObjects.last_modified := "2017-03-02 10:00:00+00:00";
                  ListAllObjects.expiration := Some "expiry-date" |})];
       ListAllObjects.objects_end := None |}
    [("abc/report.zip",
      {| ListAllObjects.metadata := "{'customer': 'Acme'}";
         ListAllObjects.last_modified := "2017-03-01 10:00:00+00:00";
         ListAllObjects.expiration := None |});
     ("ff/report.zip",
      {| ListAllObjects.metadata := "{}";
         ListAllObjects.last_modified := "2017-03-02 10:00:00+00:00";
         ListAllObjects.expiration := Some "expiry-date" |})]
    eq_refl)).
Defined.

(** X17: when the HEAD request of an object fails, the listing script stops
    there with that exception: it has printed the lines of the objects
    before it, in order, and it neither requests nor prints anything for
    the objects after it. *)
Theorem listing_stops_at_failed_head (b : ListAllObjects.bucket)
  (pre : list (string * ListAllObjects.s3object)) (key : string) (e : exn)
  (post : list (string * (exn + ListAllObjects.s3object))) :
  ListAllObjects.objects b
  = ((λ ko, (ko.1, inr ko.2)) <$> pre) ++ (key, inl e) :: post →
  ListAllObjects.printed (ListAllObjects.script b).1
  = (λ ko, ListAllObjects.line ko.1 ko.2) <$> pre
  ∧ ListAllObjects.heads (ListAllObjects.script b).1 = (fst <$> pre) ++ [key]
  ∧ (ListAllObjects.script b).2 = Raised e
  ∧ exit_status (ListAllObjects.script b).2 = 1%Z.
Proof.
  intros Hobjs. unfold ListAllObjects.script. rewrite Hobjs.
  destruct (for_objects_pre pre ((key, inl e) :: post)
              (ListAllObjects.objects_end b))
    as (Hprinted & Hheads & Hend).
  rewrite Hprinted, Hheads, Hend. simpl. by rewrite app_nil_r.
Qed.

Lemma listing_stops_at_failed_head_witness :
  ListAllObjects.printed
    (ListAllObjects.script
       {| ListAllObjects.objects :=
            [("abc/report.zip",
              inr {| ListAllObjects.metadata := "{}";
                     ListAllObjects.last_modified := "2017-03-01 10:00:00+00:00";
                     ListAllObjects.expiration := None |});
             ("gone/report.zip", inl access_denied);
             ("ff/report.zip",
              inr {| ListAllObjects.metadata := "{}";
                     ListAllObjects.last_modified := "2017-03-02 10:00:00+00:00";
                     ListAllObjects.expiration := None |})];
          ListAllObjects.objects_end := None |}).1
  = ["abc/report.zip,{},2017-03-01 10:00:00+00:00,None"].
Proof.
  exact (proj1 (listing_stops_at_failed_head
    {| ListAllObjects.objects :=
         [("abc/report.zip",
           inr {| ListAllObjects.metadata := "{}";
                  ListAllObjects.last_modified := "2017-03-01 10:00:00+00:00";
                  ListAllObjects.expiration := None |});
          ("gone/report.zip", inl access_denied);
          ("ff/report.zip",
           inr {| ListAllObjects.metadata := "{}";
                  ListAllObjects.last_modified := "2017-03-02 10:00:00+00:00";
                  ListAllObjects.expiration := None |})];
       ListAllObjects.objects_end := None |}
    [("abc/report.zip",
      {| ListAllObjects.metadata := "{}";
         ListAllObjects.last_modified := "2017-03-01 10:00:00+00:00";
         ListAllObjects.expiration := None |})]
    "gone/report.zip" access_denied
    [("ff/report.zip",
      inr {| ListAllObjects.metadata := "{}";
             ListAllObjects.last_modified := "2017-03-02 10:00:00+00:00";
             ListAllObjects.expiration := None |})]
    eq_refl)).
Defined.

(** X18: a printed line starts with the object's key: for a key without a
    comma the first comma-separated field of the line is the key, and for
    an object under no lifecycle rule the last field is [None]. *)
Theorem listing_line_fields (key : string) (obj : ListAllObjects.s3object) :
  ","%char ∉ chars key →
  subscript (split "," (ListAllObjects.line key obj)) 0 = key
  ∧ (ListAllObjects.expiration obj = None →
     last (split "," (ListAllObjects.line key obj)) = Some "None").
Proof.
  intros Hkey. unfold ListAllObjects.line.
  change (join "," [key; ListAllObjects.metadata obj;
                    ListAllObjects.last_modified obj;
                    ListAllObjects.str_opt (ListAllObjects.expiration obj)])
    with (key +:+ String ","
            (ListAllObjects.metadata obj +:+ String ","
               (ListAllObjects.last_modified obj +:+ String ","
                  (ListAllObjects.str_opt (ListAllObjects.expiration obj))))).
  rewrite !split_app, (split_no_sep "," key) by done.
  split; [done|]. intros ->.
  rewrite !app_assoc. apply last_snoc.
Qed.

Lemma listing_line_fields_witness :
  (","%char ∉ chars "abc/report.zip")
  ∧ subscript
      (split ","
         (ListAllObjects.line "abc/report.zip"
            {| ListAllObjects.metadata := "{'customer': 'Acme', 'originalFile': 'demo.zip'}";
               ListAllObjects.last_modified := "2017-03-01 10:00:00+00:00";
               ListAllObjects.expiration := None |})) 0
    = "abc/report.zip".
Proof.
  assert (","%char ∉ chars "abc/report.zip") as Hkey by (by apply no_sep_count).
  split; [exact Hkey|].
  exact (proj1 (listing_line_fields "abc/report.zip" _ Hkey)).
Defined.

(** ** The scan, once more *)

(** X19: the scan returns the highest position whose rule carries the
    digest as ID, and returns nothing exactly when no rule does. *)
Theorem scan_highest_match (d : string) (rules : list (gmap string pyval))
  (i : nat) :
  (scan d rules = Some i
   ↔ ∃ r, rules !! i = Some r ∧ has_id d r = true
          ∧ ∀ j r', i < j → rules !! j = Some r' → has_id d r' = false)
  ∧ (scan d rules = None ↔ ∀ r, r ∈ rules → has_id d r = false).
Proof.
  split.
  - split.
    + intros (l1 & r & l2 & -> & <- & Hr & Hl2)%scan_Some.
      exists r. split_and!; [by rewrite list_lookup_middle|done|].
      intros j r' Hj Hlook.
      rewrite lookup_app_r in Hlook by lia.
      destruct (j - length l1) as [|k] eqn:Hk; [lia|]. simpl in Hlook.
      rewrite Forall_forall in Hl2. apply Hl2.
      by eapply list_elem_of_lookup_2.
    + intros (r & Hlook & Hr & Hlater).
      rewrite <-(take_drop_middle rules i r Hlook).
      assert (length (take i rules) = i) as Hlen.
      { rewrite length_take. apply lookup_lt_Some in Hlook. lia. }
      assert (Forall (λ r', has_id d r' = false) (drop (S i) rules)) as Hrest.
      { apply Forall_forall. intros r' (k & Hk)%list_elem_of_lookup_1.
        rewrite lookup_drop in Hk. apply (Hlater (S i + k)); [lia|done]. }
      pose proof (scan_last_match d (take i rules) (drop (S i) rules) r Hr Hrest)
        as Hscan.
      by rewrite Hlen in Hscan.
  - rewrite scan_None. apply Forall_forall.
Qed.

(** * The constructed rule and the fetch failures *)

Lemma puts_run_reached (prefix : string) (w : world)
  (rules : list (gmap string pyval)) :
  fetched w = Some rules →
  with_id (rule_id prefix) rules = [] ∨ delete_lifecycle_reply w = None →
  puts (setLifecycleConfig prefix w).1
  = [{| Rules := merged prefix rules; ResponseMetadata := None |}].
Proof.
  intros Hf Hreach. rewrite (setLifecycleConfig_fetched _ _ _ Hf).
  unfold after_fetch, merged.
  destruct (scan _ rules) as [i|] eqn:Hscan.
  - destruct Hreach as [Hnil|Hdel].
    + apply with_id_nil_iff in Hnil. congruence.
    + rewrite Hdel. simpl. by rewrite puts_put_tail.
  - simpl. by rewrite puts_put_tail.
Qed.

(** C2: for an upload key [<digest>/report.zip] whose digest holds no slash,
    the constructed rule has the digest as ID, the whole key as Prefix,
    Status "Enabled" and an Expiration of 3 days.  It is appended to the
    in-memory rule set: whenever the rule set is fetched (or the bucket has
    none) and the clear, if one is issued, does not raise, the merge submits
    one rule set, which is the in-memory rule set (the fetched rules, less
    the old rule if one was found) followed by the constructed rule; and no
    rule set is ever submitted that does not end with it. *)
Theorem newlifecyclerule_of_upload_key (digest : string) :
  "/"%char ∉ chars digest →
  newlifecyclerule (digest +:+ "/" +:+ REPORT_NAME)
  = {[ "Status" := PStr "Enabled";
       "Prefix" := PStr (digest +:+ "/" +:+ REPORT_NAME);
       "Expiration" := PDict {[ "Days" := PInt 3%Z ]};
       "ID" := PStr digest ]}
  ∧ (∀ w rules,
       fetched w = Some rules →
       with_id digest rules = [] ∨ delete_lifecycle_reply w = None →
       ∃ rest,
         puts (setLifecycleConfig (digest +:+ "/" +:+ REPORT_NAME) w).1
         = [{| Rules := rest ++ [newlifecyclerule (digest +:+ "/" +:+ REPORT_NAME)];
               ResponseMetadata := None |}]
         ∧ (with_id digest rules = [] → rest = rules)
         ∧ (rest = rules ∨ ∃ l1 r l2, rules = l1 ++ r :: l2 ∧ rest = l1 ++ l2))
  ∧ (∀ w cfg',
       cfg' ∈ puts (setLifecycleConfig (digest +:+ "/" +:+ REPORT_NAME) w).1 →
       ∃ rest,
         Rules cfg' = rest ++ [newlifecyclerule (digest +:+ "/" +:+ REPORT_NAME)]).
Proof.
  intros Hnot.
  pose proof (rule_id_key digest REPORT_NAME Hnot) as Hid.
  split_and!.
  - unfold newlifecyclerule. fold (rule_id (digest +:+ "/" +:+ REPORT_NAME)).
    by rewrite Hid.
  - intros w rules Hf Hreach. rewrite <-Hid in Hreach.
    rewrite (puts_run_reached _ _ _ Hf Hreach).
    destruct (merged_cases (digest +:+ "/" +:+ REPORT_NAME) rules)
      as [(Hscan & _ & ->)|(l1 & r & l2 & -> & Hscan & _ & _ & ->)].
    + exists rules. split_and!; [done|done|by left].
    + exists (l1 ++ l2). rewrite <-(List.app_assoc l1 l2). split_and!; [done| |].
      * rewrite <-Hid. intros Hnil%with_id_nil_iff. congruence.
      * right. by exists l1, r, l2.
  - intros w cfg' (rules & _ & ->)%puts_run_fetched. simpl.
    unfold merged. by eexists.
Qed.

Lemma newlifecyclerule_of_upload_key_witness :
  ("/"%char ∉ chars "abc")
  ∧ newlifecyclerule ("abc" +:+ "/" +:+ REPORT_NAME)
    = {[ "Status" := PStr "Enabled";
         "Prefix" := PStr ("abc" +:+ "/" +:+ REPORT_NAME);
         "Expiration" := PDict {[ "Days" := PInt 3%Z ]};
         "ID" := PStr "abc" ]}
  ∧ ∃ rest,
      puts (setLifecycleConfig ("abc" +:+ "/" +:+ REPORT_NAME)
              (world_of (response [existing_rule "abc" 7; existing_rule "ff" 3])
                        None None)).1
      = [{| Rules := rest ++ [newlifecyclerule ("abc" +:+ "/" +:+ REPORT_NAME)];
            ResponseMetadata := None |}]
      ∧ (rest = [existing_rule "abc" 7; existing_rule "ff" 3]
         ∨ ∃ l1 r l2,
             [existing_rule "abc" 7; existing_rule "ff" 3] = l1 ++ r :: l2
             ∧ rest = l1 ++ l2).
Proof.
  assert ("/"%char ∉ chars "abc") as Hnot by (by apply no_sep_count).
  destruct (newlifecyclerule_of_upload_key "abc" Hnot) as (Hrule & Happend & _).
  split_and!; [exact Hnot|exact Hrule|].
  destruct (Happend
              (world_of (response [existing_rule "abc" 7; existing_rule "ff" 3])
                        None None)
              [existing_rule "abc" 7; existing_rule "ff" 3]
              eq_refl (or_intror eq_refl))
    as (rest & Hputs & _ & Hrest).
  exists rest. by split.
Defined.

(** C4, as stated, fails: a fetch that fails with an [AccessDenied] error
    whose message quotes [(NoSuchLifecycleConfiguration)] is taken for "no
    configuration": the merge goes on, writes the new rule alone, and
    [main] exits with status 0. *)
Lemma fetch_failure_quoting_marker_is_recovered :
  exn_cls access_denied_quoting_marker = ClientError
  ∧ error_code (exn_str access_denied_quoting_marker) = "AccessDenied"
  ∧ setLifecycleConfig "abc/report.zip"
      (world_of (inl access_denied_quoting_marker) None None)
    = ([GetBucketLifecycleConfiguration BUCKET_NAME;
        BucketLifecyclePut BUCKET_NAME
          {| Rules := [newlifecyclerule "abc/report.zip"];
             ResponseMetadata := None |}],
       Val tt)
  ∧ exit_status
      (main "demo.zip" "Acme"
         (world_of (inl access_denied_quoting_marker) None None)).2
    = 0%Z.
Proof. split_and!; vm_compute; reflexivity. Qed.

(** C4, amended: a fetch failure is fatal unless it is a [ClientError] whose
    text contains [(NoSuchLifecycleConfiguration)].  If it is fatal, no
    clear and no write-back is issued and the exit status is 1, also for
    [main]: a [ClientError] is printed by the merge before [sys.exit(1)],
    any other exception propagates uncaught and the merge prints nothing.
    A [ClientError] whose text contains the marker, whatever its error
    code, is recovered from: the merge submits the new rule alone. *)
Theorem fetch_failure_is_fatal (prefix : string) (w : world) (e : exn) :
  get_lifecycle_reply w = inl e →
  (¬ (exn_cls e = ClientError
      ∧ ∃ pre post,
          exn_str e = pre +:+ "(NoSuchLifecycleConfiguration)" +:+ post) →
   (exn_cls e = ClientError →
    setLifecycleConfig prefix w
    = ([GetBucketLifecycleConfiguration BUCKET_NAME;
        Print ("Error getting lifecycle configuration: " +:+ exn_str e)],
       SysExit 1%Z))
   ∧ (exn_cls e ≠ ClientError →
      setLifecycleConfig prefix w
      = ([GetBucketLifecycleConfiguration BUCKET_NAME], Raised e))
   ∧ exit_status (setLifecycleConfig prefix w).2 = 1%Z
   ∧ puts (setLifecycleConfig prefix w).1 = []
   ∧ clears (setLifecycleConfig prefix w).1 = 0
   ∧ ∀ filename customer,
       zipfile_reply w = None → put_object_reply w = inr 200%Z →
       exit_status (main filename customer w).2 = 1%Z)
  ∧ (exn_cls e = ClientError
     ∧ (∃ pre post,
          exn_str e = pre +:+ "(NoSuchLifecycleConfiguration)" +:+ post) →
     puts (setLifecycleConfig prefix w).1
     = [{| Rules := [newlifecyclerule prefix]; ResponseMetadata := None |}]).
Proof.
  intros Hget. split.
  - intros Hnot.
    assert (no_configuration e = false) as Hno.
    { unfold no_configuration.
      destruct (decide (exn_cls e = ClientError)) as [Hc|Hc].
      - rewrite bool_decide_eq_true_2 by done. simpl.
        destruct (str_in _ (exn_str e)) eqn:Hs; [|done].
        destruct Hnot. split; [done|]. by apply str_in_spec.
      - by rewrite bool_decide_eq_false_2. }
    assert (fetched w = None) as Hf.
    { unfold fetched. by rewrite Hget, Hno. }
    assert (∀ p, setLifecycleConfig p w
      = (if decide (exn_cls e = ClientError)
         then ([GetBucketLifecycleConfiguration BUCKET_NAME;
                Print ("Error getting lifecycle configuration: " +:+ exn_str e)],
               SysExit 1%Z)
         else ([GetBucketLifecycleConfiguration BUCKET_NAME], Raised e))) as Hrun.
    { intros p.
      destruct (setLifecycleConfig_not_fetched p w Hf) as (e' & Hget' & _ & ->).
      rewrite Hget in Hget'. by injection Hget' as <-. }
    split_and!.
    + intros Hc. rewrite Hrun. by destruct (decide (exn_cls e = ClientError)).
    + intros Hc. rewrite Hrun. by destruct (decide (exn_cls e = ClientError)).
    + rewrite Hrun. by destruct (decide (exn_cls e = ClientError)).
    + rewrite Hrun. by destruct (decide (exn_cls e = ClientError)).
    + rewrite Hrun. by destruct (decide (exn_cls e = ClientError)).
    + intros filename customer Hzip Hput.
      rewrite main_uploaded by done. simpl.
      rewrite Hrun. by destruct (decide (exn_cls e = ClientError)).
  - intros [Hc Hs%str_in_spec].
    assert (fetched w = Some []) as Hf.
    { unfold fetched, no_configuration.
      by rewrite Hget, Hs, bool_decide_eq_true_2. }
    rewrite (puts_run_reached _ _ _ Hf (or_introl eq_refl)).
    unfold merged. by rewrite scan_nil.
Qed.

Lemma fetch_failure_is_fatal_witness :
  get_lifecycle_reply (world_of (inl access_denied) None None)
  = inl access_denied
  ∧ setLifecycleConfig "abc/report.zip" (world_of (inl access_denied) None None)
    = ([GetBucketLifecycleConfiguration BUCKET_NAME;
        Print ("Error getting lifecycle configuration: " +:+ exn_str access_denied)],
       SysExit 1%Z)
  ∧ exit_status (main "demo.zip" "Acme"
                   (world_of (inl access_denied) None None)).2 = 1%Z.
Proof.
  assert (get_lifecycle_reply (world_of (inl access_denied) None None)
          = inl access_denied) as Hget by reflexivity.
  assert (¬ (exn_cls access_denied = ClientError
             ∧ ∃ pre post,
                 exn_str access_denied
                 = pre +:+ "(NoSuchLifecycleConfiguration)" +:+ post)) as Hnot.
  { intros [_ Hs%str_in_spec]. vm_compute in Hs. discriminate. }
  destruct (proj1 (fetch_failure_is_fatal "abc/report.zip" _ access_denied Hget)
              Hnot)
    as (Hclient & _ & _ & _ & _ & Hmain).
  split_and!; [exact Hget|exact (Hclient eq_refl)|].
  exact (Hmain "demo.zip" "Acme" eq_refl eq_refl).
Defined.
